(** * Reference resolver generation: extractor and synthesizer

    A shallow embedding of [internal/method]: the [ReferenceProcessor]
    that turns marked fields into [Reference] records, and
    [NewResolveReferences] with its recursive guard builder [encapsulate],
    which assembles the [ResolveReferences] method as a token tree of the
    code-emission library. *)

From Stdlib Require Import ZArith Ascii String DecimalString DecimalNat.
From stdpp Require Import base list strings gmap.

Set Warnings "-register-all".
Open Scope string_scope.
Open Scope list_scope.

(** ** Go strings *)

Module strings.

Definition HasPrefix (s prefix : string) : bool := String.prefix prefix s.

Definition HasSuffix (s suffix : string) : bool :=
  let n := String.length s in
  let m := String.length suffix in
  (m <=? n)%nat && String.eqb (String.substring (n - m) m s) suffix.

Definition TrimSuffix (s suffix : string) : string :=
  if HasSuffix s suffix
  then String.substring 0 (String.length s - String.length suffix) s
  else s.

(** [strings.Join(elems, sep)]. *)
Fixpoint Join (elems : list string) (sep : string) : string :=
  match elems with
  | [] => EmptyString
  | [e] => e
  | e :: rest => e +:+ sep +:+ Join rest sep
  end.

(** [strings.Split(s, sep)] for a separator of one byte: the pieces
    between the separators, one more than there are separators. *)
Fixpoint Split1 (s : string) (sep : ascii) : list string :=
  match s with
  | EmptyString => [EmptyString]
  | String c r =>
      if Ascii.eqb c sep then EmptyString :: Split1 r sep
      else match Split1 r sep with
           | w :: ws => String c w :: ws
           | [] => [String c EmptyString]
           end
  end.

End strings.

(** [fmt.Sprintf] of the verb [%d] for a non-negative [int]. *)
Definition itoa (n : nat) : string := NilZero.string_of_uint (Nat.to_uint n).

(** [cleaner], the replacer that deletes every "[]" and every "*": one
    pass from left to right; at each position the first old string that
    matches is dropped, and the scan goes on after it. *)
Fixpoint cleaner_Replace (s : string) : string :=
  match s with
  | EmptyString => EmptyString
  | String c r =>
      if Ascii.eqb c "[" then
        match r with
        | String c' r' =>
            if Ascii.eqb c' "]" then cleaner_Replace r'
            else String c (cleaner_Replace r)
        | EmptyString => String c EmptyString
        end
      else if Ascii.eqb c "*" then cleaner_Replace r
      else String c (cleaner_Replace r)
  end.

(** ** The code-emission library

    A [*jen.Statement] is a sequence of tokens and groups; every builder
    method appends one item to its receiver and returns it.  No statement
    is extended after it has been handed to another one, so statements
    are modelled as values. *)

Inductive lit : Type :=
  | LInt (z : Z)
  | LString (s : string).

Inductive Code : Type :=
  | TId (name : string)
  | TOp (op : string)
  | TLit (v : lit)
  | TNil
  | TErr
  | TError
  | TVar
  | TFunc
  | TLine
  | TDot (name : string)
  | TQual (path name : string)
  | TComment (text : string)
  | TCall (params : list (list Code))
  | TParams (params : list (list Code))
  | TBlock (statements : list (list Code))
  | TIf (conditions : list (list Code))
  | TFor (conditions : list (list Code))
  | TReturn (results : list (list Code))
  | TList (items : list (list Code))
  | TMake (args : list (list Code))
  | TLen (v : list Code)
  | TValues (values : list (list Code))
  | TDict (entries : list (list Code * list Code))
  | TStmt (s : list Code).

Abbreviation Statement := (list Code).

(** Method chaining: [x |> Dot "f"] is [x.Dot("f")]. *)
Notation "s |> f" := (f s) (at level 45, left associativity, only parsing).

Module Jen.
(** [jen] alone is the empty statement every package-level function
    starts from. *)
Definition jen : Statement := [].

Definition Id (name : string) (s : Statement) : Statement := s ++ [TId name].
Definition Op (op : string) (s : Statement) : Statement := s ++ [TOp op].
Definition Lit (v : lit) (s : Statement) : Statement := s ++ [TLit v].
Definition Nil (s : Statement) : Statement := s ++ [TNil].
Definition Err (s : Statement) : Statement := s ++ [TErr].
Definition Error (s : Statement) : Statement := s ++ [TError].
Definition Var (s : Statement) : Statement := s ++ [TVar].
Definition Func (s : Statement) : Statement := s ++ [TFunc].
Definition Line (s : Statement) : Statement := s ++ [TLine].
Definition Dot (name : string) (s : Statement) : Statement := s ++ [TDot name].
Definition Qual (path name : string) (s : Statement) : Statement :=
  s ++ [TQual path name].
Definition Commentf (text : string) (s : Statement) : Statement :=
  s ++ [TComment text].
Definition Call (params : list Statement) (s : Statement) : Statement :=
  s ++ [TCall params].
Definition Params (params : list Statement) (s : Statement) : Statement :=
  s ++ [TParams params].
Definition Block (statements : list Statement) (s : Statement) : Statement :=
  s ++ [TBlock statements].
Definition If (conditions : list Statement) (s : Statement) : Statement :=
  s ++ [TIf conditions].
Definition For (conditions : list Statement) (s : Statement) : Statement :=
  s ++ [TFor conditions].
Definition Return (results : list Statement) (s : Statement) : Statement :=
  s ++ [TReturn results].
Definition List (items : list Statement) (s : Statement) : Statement :=
  s ++ [TList items].
Definition Make (args : list Statement) (s : Statement) : Statement :=
  s ++ [TMake args].
Definition Len (v : Statement) (s : Statement) : Statement := s ++ [TLen v].
Definition Values (values : list Statement) (s : Statement) : Statement :=
  s ++ [TValues values].
(** [jen.Dict{k: v, ...}] as a value of [Values]; the entries are kept
    in the order the source writes them. *)
Definition Dict (entries : list (Statement * Statement)) : Statement :=
  [TDict entries].
(** [&jen.Statement{a, b, ...}]: a statement whose items are statements. *)
Definition Stmts (items : list Statement) : Statement := TStmt <$> items.
Definition Clone (s : Statement) : Statement := s.
End Jen.
Import Jen.

(** ** Declared types ([go/types]) *)

Module types.

(** The kinds of type the processor tells apart, and the rest. *)
Inductive Type_ : Type :=
  | Basic (name : string)
  | Named_ (name : string)
  | Pointer (elem : Type_)
  | Slice (elem : Type_)
  | Other (repr : string).

(** [t.String()]. *)
Fixpoint String_ (t : Type_) : string :=
  match t with
  | Basic name => name
  | Named_ name => name
  | Pointer elem => "*" +:+ String_ elem
  | Slice elem => "[]" +:+ String_ elem
  | Other repr => repr
  end.

(** [*types.Var]: a struct field. *)
Record Var := { Name : string; Type' : Type_ }.

(** [*types.Named], by the name of its declaration. *)
Record Named := { ObjName : string }.

(** [types.Object]: [o.Name()] and [o.Type()]; [AsNamed] is the
    outcome of asserting that [o.Type()] is a named type. *)
Record Object := { OName : string; AsNamed : option Named }.

End types.

(** ** Slices of strings

    [GoValueFieldPath] is a slice, and a slice passed to a variadic
    parameter with [...] is passed as it is: callee and caller see one
    backing array.  Arrays live in a store, a slice is the address of its
    array; no array is appended to once a [Reference] holds it, so the
    array's contents are the slice's elements. *)

Abbreviation loc := nat.
Abbreviation heap := (list (list string)).

Definition heap_read (h : heap) (l : loc) : list string := default [] (h !! l).
Definition heap_write (h : heap) (l : loc) (i : nat) (v : string) : heap :=
  <[l := <[i := v]> (heap_read h l)]> h.
Definition heap_alloc (h : heap) (elems : list string) : loc * heap :=
  (length h, h ++ [elems]).

(** [fields[i]] when [i] is in range. *)
Definition at_ (fields : list string) (i : nat) : string :=
  default EmptyString (fields !! i).

(** ** Calls that may panic *)

Inductive result (A : Type) : Type :=
  | Returned (a : A)
  | Panicked (msg : string).
Arguments Returned {A} a.
Arguments Panicked {A} msg.

#[global] Instance result_ret : MRet result := fun A a => Returned a.
#[global] Instance result_bind : MBind result := fun A B k r =>
  match r with
  | Returned a => k a
  | Panicked msg => Panicked msg
  end.

(** [values[i]] panics when [i] is out of range. *)
Definition index (values : list string) (i : nat) : result string :=
  match values !! i with
  | Some v => Returned v
  | None => Panicked "index out of range"
  end.

(** ** The reference extractor *)

Definition ReferenceTypeMarker := "crossplane:generate:reference:type".
Definition ReferenceExtractorMarker := "crossplane:generate:reference:extractor".
Definition ReferenceReferenceFieldNameMarker :=
  "crossplane:generate:reference:refFieldName".
Definition ReferenceSelectorFieldNameMarker :=
  "crossplane:generate:reference:selectorFieldName".

(** [Reference] is the internal representation that has enough
    information to let us generate the resolver.  [GoValueFieldPath] is
    the slice of the fields to travel; [SourceType] is the type as
    [Process] prints it, which the resolver emits as it is. *)
Record Reference : Type := {
  RemoteType : Statement;
  Extractor : Statement;
  RemoteListType : Statement;
  GoValueFieldPath : loc;
  GoRefFieldName : string;
  GoSelectorFieldName : string;
  IsSlice : bool;
  IsPointer : bool;
  SourceType : string;
  SourceName : string
}.

Record ReferenceProcessor : Type := {
  DefaultExtractor : Statement;
  Receiver : string;
  refs : list Reference
}.

Definition NewReferenceProcessor (receiver : string)
    (opts : list (ReferenceProcessor -> ReferenceProcessor)) : ReferenceProcessor :=
  foldl (fun rp f => f rp)
    {| DefaultExtractor := []; Receiver := receiver; refs := [] |} opts.

Definition WithDefaultExtractor (ext : Statement)
    (rp : ReferenceProcessor) : ReferenceProcessor :=
  {| DefaultExtractor := ext; Receiver := Receiver rp; refs := refs rp |}.

Definition GetReferences (rp : ReferenceProcessor) : list Reference := refs rp.

Definition getTypeCodeFromPath (path : string) (nameSuffix : list string) : Statement :=
  let words := strings.Split1 path "." in
  if (length words =? 1)%nat then
    jen |> Op "&" |> Id (path +:+ strings.Join nameSuffix EmptyString) |> Values []
  else
    let last := at_ words (length words - 1) in
    let name := last +:+ strings.Join nameSuffix EmptyString in
    let pkg := strings.TrimSuffix path ("." +:+ last) in
    jen |> Op "&" |> Qual pkg name |> Values [].

Definition getFuncCodeFromPath (path : string) : Statement :=
  let words := strings.Split1 path "." in
  if (length words =? 1)%nat then jen |> Id path
  else
    let name := at_ words (length words - 1) in
    let pkg := strings.TrimSuffix path ("." +:+ name) in
    jen |> Qual pkg name.

(** The Go [error] value: [None] is [nil]. *)
Abbreviation error := (option string).

Section Process.

(** [comments.ParseMarkers], the marker parser of another package: a
    map from marker key to the values given for it. *)
Variable ParseMarkers : string -> gmap string (list string).

(** The shape flags and the source type, read off [f.Type()]. *)
Definition fieldShape (t : types.Type_) : bool * bool * string :=
  match t with
  | types.Pointer elem => (true, false, types.String_ elem)
  | types.Slice elem =>
      match elem with
      | types.Pointer pointee => (true, true, types.String_ pointee)
      | _ => (false, true, EmptyString)
      end
  | _ => (false, false, EmptyString)
  end.

(** [Process] stores the reference information of the given field, if
    any.  It yields the error it returns together with the processor
    and the store as it leaves them. *)
Definition Process (rp : ReferenceProcessor) (_ : types.Named) (f : types.Var)
    (_ comment : string) (parentFields : list string) (h : heap)
    : result (error * ReferenceProcessor * heap) :=
  let markers := ParseMarkers comment in
  let refTypeValues := default [] (markers !! ReferenceTypeMarker) in
  if (length refTypeValues =? 0)%nat then mret (None, rp, h) else
  refType ← index refTypeValues 0;
  let '(isPointer, isList, sourceType) := fieldShape (types.Type' f) in
  extractorPath ←
    match markers !! ReferenceExtractorMarker with
    | Some values => v ← index values 0; mret (getFuncCodeFromPath v)
    | None => mret (DefaultExtractor rp)
    end;
  let refFieldName :=
    if isList then types.Name f +:+ "Refs" else types.Name f +:+ "Ref" in
  refFieldName ←
    match markers !! ReferenceReferenceFieldNameMarker with
    | Some values => index values 0
    | None => mret refFieldName
    end;
  let selectorFieldName := types.Name f +:+ "Selector" in
  selectorFieldName ←
    match markers !! ReferenceSelectorFieldNameMarker with
    | Some values => index values 0
    | None => mret selectorFieldName
    end;
  let path := Receiver rp :: parentFields in
  let '(valuePath, h) := heap_alloc h (path ++ [types.Name f]) in
  mret (None,
        {| DefaultExtractor := DefaultExtractor rp;
           Receiver := Receiver rp;
           refs := refs rp ++ [
             {| SourceType := sourceType;
                SourceName := types.Name f;
                RemoteType := getTypeCodeFromPath refType [];
                RemoteListType := getTypeCodeFromPath refType ["List"];
                Extractor := extractorPath;
                GoValueFieldPath := valuePath;
                GoRefFieldName := refFieldName;
                GoSelectorFieldName := selectorFieldName;
                IsPointer := isPointer;
                IsSlice := isList |} ] |},
        h).

End Process.

(** ** The guard builder *)

(** A terminal call emitter is handed the path slice; it reads the
    slice, and the [Reference] it closes over, in the store as it is at
    the time of the call. *)
Abbreviation resolutionCallFn := (loc -> heap -> result Statement).

(** [fieldPath]: the selector expression of [fields[0..index]] with the
    markers cleaned away. *)
Definition fieldPathOf (fields : list string) (index : nat) : Statement :=
  foldl (fun fieldPath i => fieldPath |> Dot (cleaner_Replace (at_ fields i)))
        (jen |> Id (cleaner_Replace (at_ fields 0)))
        (seq 1 index).

(** The body of [encapsulate]; [remaining] bounds the segments still to
    visit, [len(fields) - index], and is what the recursion descends on. *)
Fixpoint encapsulate_from (remaining : nat) (index : nat) (callFn : resolutionCallFn)
    (fields : loc) (h : heap) : result (Statement * heap) :=
  let fs := heap_read h fields in
  if (length fs <=? index)%nat then
    s ← callFn fields h; mret (s, h)
  else
    match remaining with
    | O => s ← callFn fields h; mret (s, h)
    | S remaining =>
        let field := at_ fs index in
        let fieldPath := fieldPathOf fs index in
        if strings.HasPrefix field "*" then
          let h := heap_write h fields index (cleaner_Replace (at_ fs index)) in
          '(inner, h) ← encapsulate_from remaining (index + 1) callFn fields h;
          mret (jen |> If [fieldPath |> Op "!=" |> Nil] |> Block [inner], h)
        else if strings.HasPrefix field "[]" then
          let h := heap_write h fields index
                     (cleaner_Replace (at_ fs index) +:+ "[i" +:+ itoa index +:+ "]") in
          '(inner, h) ← encapsulate_from remaining (index + 1) callFn fields h;
          mret (jen |> For [
                  jen |> Id ("i" +:+ itoa index) |> Op ":=" |> Lit (LInt 0);
                  jen |> Id ("i" +:+ itoa index) |> Op "<" |> Len fieldPath;
                  jen |> Id ("i" +:+ itoa index) |> Op "++"
                ] |> Block [inner], h)
        else
          encapsulate_from remaining (index + 1) callFn fields h
    end.

(** [encapsulate] goes through the fields and encapsulates the final call
    with nil guard and/or for loops. *)
Definition encapsulate (index : nat) (callFn : resolutionCallFn)
    (fields : loc) (h : heap) : result (Statement * heap) :=
  encapsulate_from (length (heap_read h fields) - index) index callFn fields h.

(** ** Terminal call emission *)

(** [prefixPath]: [fields[0]] followed by the selectors of
    [fields[1 .. len-2]]. *)
Definition prefixPathOf (fields : list string) : Statement :=
  foldl (fun prefixPath i => prefixPath |> Dot (at_ fields i))
        (jen |> Id (at_ fields 0))
        (seq 1 (length fields - 2)).

Definition wrapReturn (ref : Reference) (h : heap) : Statement :=
  jen |> Return [jen |> Qual "github.com/pkg/errors" "Wrap" |> Call [
    jen |> Err;
    jen |> Lit (LString (strings.Join (heap_read h (GoValueFieldPath ref)) "."))]].

Definition singleResolutionCall (ref : Reference) (referencePkgPath : string)
    : resolutionCallFn := fun fields h =>
  let fs := heap_read h fields in
  if (length fs =? 0)%nat then Panicked "index out of range" else
  let prefixPath := prefixPathOf fs in
  let currentValuePath := prefixPath |> Clone |> Dot (at_ fs (length fs - 1)) in
  let referenceFieldPath := prefixPath |> Clone |> Dot (GoRefFieldName ref) in
  let selectorFieldPath := prefixPath |> Clone |> Dot (GoSelectorFieldName ref) in
  let '(setResolvedValue, currentValuePath) :=
    if IsPointer ref then
      let id := "v" +:+ SourceName ref in
      (Stmts [
         jen |> Var |> Id id |> Op (SourceType ref);
         jen |> Line;
         jen |> If [
           jen |> Err |> Op "=" |> Qual referencePkgPath "ToPtrValue"
               |> Call [jen |> Id "rsp" |> Dot "ResolvedValue"; jen |> Id id];
           jen |> Err |> Op "!=" |> Nil
         ] |> Block [wrapReturn ref h];
         jen |> Line;
         currentValuePath |> Clone |> Op "=" |> Id id ],
       jen |> Qual referencePkgPath "FromPtrValue" |> Call [currentValuePath])
    else
      (currentValuePath |> Clone |> Op "=" |> Id "rsp" |> Dot "ResolvedValue",
       currentValuePath) in
  mret (Stmts [
    jen |> List [jen |> Id "rsp"; jen |> Err] |> Op "=" |> Id "r" |> Dot "Resolve"
        |> Call [
          jen |> Id "ctx";
          jen |> Qual referencePkgPath "ResolutionRequest" |> Values [Dict [
            (jen |> Id "CurrentValue", currentValuePath);
            (jen |> Id "Reference", referenceFieldPath);
            (jen |> Id "Selector", selectorFieldPath);
            (jen |> Id "To", jen |> Qual referencePkgPath "To" |> Values [Dict [
               (jen |> Id "Managed", RemoteType ref);
               (jen |> Id "List", RemoteListType ref)]]);
            (jen |> Id "Extract", Extractor ref)]]];
    jen |> Line;
    jen |> If [jen |> Err |> Op "!=" |> Nil] |> Block [wrapReturn ref h];
    jen |> Line;
    setResolvedValue;
    jen |> Line;
    referenceFieldPath |> Clone |> Op "=" |> Id "rsp" |> Dot "ResolvedReference";
    jen |> Line ]).

Definition multiResolutionCall (ref : Reference) (referencePkgPath : string)
    : resolutionCallFn := fun fields h =>
  let fs := heap_read h fields in
  if (length fs =? 0)%nat then Panicked "index out of range" else
  let prefixPath := prefixPathOf fs in
  let currentValuePath := prefixPath |> Clone |> Dot (at_ fs (length fs - 1)) in
  let referenceFieldPath := prefixPath |> Clone |> Dot (GoRefFieldName ref) in
  let selectorFieldPath := prefixPath |> Clone |> Dot (GoSelectorFieldName ref) in
  let '(setResolvedValues, currentValuePath) :=
    if IsPointer ref then
      let id := "v" +:+ SourceName ref in
      (Stmts [
         jen |> Id id |> Op ":=" |> Make [
           jen |> Op (SourceType ref);
           jen |> Len (jen |> Id "mrsp" |> Dot "ResolvedValues")];
         jen |> Line;
         jen |> If [
           jen |> Err |> Op "=" |> Qual referencePkgPath "ToPtrValues"
               |> Call [jen |> Id "mrsp" |> Dot "ResolvedValues"; jen |> Id id];
           jen |> Err |> Op "!=" |> Nil
         ] |> Block [wrapReturn ref h];
         jen |> Line;
         currentValuePath |> Clone |> Op "=" |> Id id ],
       jen |> Qual referencePkgPath "FromPtrValues" |> Call [currentValuePath])
    else
      (currentValuePath |> Clone |> Op "=" |> Id "mrsp" |> Dot "ResolvedValues",
       currentValuePath) in
  mret (Stmts [
    jen |> List [jen |> Id "mrsp"; jen |> Err] |> Op "=" |> Id "r"
        |> Dot "ResolveMultiple"
        |> Call [
          jen |> Id "ctx";
          jen |> Qual referencePkgPath "MultiResolutionRequest" |> Values [Dict [
            (jen |> Id "CurrentValues", currentValuePath);
            (jen |> Id "References", referenceFieldPath);
            (jen |> Id "Selector", selectorFieldPath);
            (jen |> Id "To", jen |> Qual referencePkgPath "To" |> Values [Dict [
               (jen |> Id "Managed", RemoteType ref);
               (jen |> Id "List", RemoteListType ref)]]);
            (jen |> Id "Extract", Extractor ref)]]];
    jen |> Line;
    jen |> If [jen |> Err |> Op "!=" |> Nil] |> Block [wrapReturn ref h];
    jen |> Line;
    setResolvedValues;
    jen |> Line;
    referenceFieldPath |> Clone |> Op "=" |> Id "mrsp" |> Dot "ResolvedReferences";
    jen |> Line ]).

(** ** The synthesizer *)

(** A [*jen.File]: the top-level statements added to it so far. *)
Abbreviation File := (list Statement).

(** One callback of the traversal: the arguments [Process] is given. *)
Record FieldVisit : Type := {
  vNamed : types.Named;
  vField : types.Var;
  vTag : string;
  vComment : string;
  vParents : list string
}.

(** Modelled from the spec: the traversal engine ([xptypes.Traverser]),
    which is not part of this package.  For a named type it is the
    depth-first sequence of fields it hands to the field processor and
    the error, if any, the walk itself ends with. *)
Record Walk : Type := { visits : list FieldVisit; failure : error }.
Abbreviation Traverser := (types.Named -> Walk).

Section Synthesizer.

Variable ParseMarkers : string -> gmap string (list string).

(** The field callbacks of one walk, in order; the first error a
    callback returns aborts the walk. *)
Fixpoint visitFields (rp : ReferenceProcessor) (vs : list FieldVisit) (h : heap)
    : result (error * ReferenceProcessor * heap) :=
  match vs with
  | [] => mret (None, rp, h)
  | v :: vs =>
      '(err, rp, h) ← Process ParseMarkers rp (vNamed v) (vField v) (vTag v)
                        (vComment v) (vParents v) h;
      match err with
      | Some e => mret (Some e, rp, h)
      | None => visitFields rp vs h
      end
  end.

(** Modelled from the spec: [traverser.Traverse(namedType, cfg)] with
    [cfg.Field] the reference processor and no processor of named
    types. *)
Definition Traverse (traverser : Traverser) (n : types.Named)
    (rp : ReferenceProcessor) (h : heap)
    : result (error * ReferenceProcessor * heap) :=
  '(err, rp, h) ← visitFields rp (visits (traverser n)) h;
  match err with
  | Some e => mret (Some e, rp, h)
  | None => mret (failure (traverser n), rp, h)
  end.

(** The loop over [refs] of [NewResolveReferences]: the two flags, the
    calls emitted so far and the store. *)
Fixpoint resolverLoop (referencePkgPath : string) (refs : list Reference)
    (hasMultiResolution hasSingleResolution : bool)
    (resolverCalls : list Statement) (h : heap)
    : result (bool * bool * list Statement * heap) :=
  match refs with
  | [] => mret (hasMultiResolution, hasSingleResolution, resolverCalls, h)
  | ref :: refs =>
      if IsSlice ref then
        '(call, h) ← encapsulate 0 (multiResolutionCall ref referencePkgPath)
                       (GoValueFieldPath ref) h;
        resolverLoop referencePkgPath refs true hasSingleResolution
          (resolverCalls ++ [call |> Line]) h
      else
        '(call, h) ← encapsulate 0 (singleResolutionCall ref referencePkgPath)
                       (GoValueFieldPath ref) h;
        resolverLoop referencePkgPath refs hasMultiResolution true
          (resolverCalls ++ [call |> Line]) h
  end.

Definition initStatementsOf (referencePkgPath : string)
    (hasMultiResolution hasSingleResolution : bool) : list Statement :=
  let initStatements := [] in
  let initStatements :=
    if hasSingleResolution
    then initStatements ++
           [jen |> Var |> Id "rsp" |> Qual referencePkgPath "ResolutionResponse"]
    else initStatements in
  if hasMultiResolution
  then initStatements ++
         [jen |> Line |> Var |> Id "mrsp"
              |> Qual referencePkgPath "MultiResolutionResponse"]
  else initStatements.

(** What [NewResolveReferences] does with the references it got from
    the processor: nothing when there are none, else the comment and
    the method are added to the file. *)
Definition writeResolveReferences (receiver clientPath referencePkgPath : string)
    (f : File) (oName : string) (refs : list Reference) (h : heap)
    : result (File * heap) :=
  if (length refs =? 0)%nat then mret (f, h) else
  '(hasMultiResolution, hasSingleResolution, resolverCalls, h) ←
    resolverLoop referencePkgPath refs false false [] h;
  let initStatements :=
    initStatementsOf referencePkgPath hasMultiResolution hasSingleResolution in
  let f := f ++ [jen |> Commentf ("ResolveReferences of this " +:+ oName +:+ ".")] in
  let f := f ++ [
    jen |> Func |> Params [jen |> Id receiver |> Op "*" |> Id oName]
        |> Id "ResolveReferences"
        |> Params [jen |> Id "ctx" |> Qual "context" "Context";
                   jen |> Id "c" |> Qual clientPath "Reader"]
        |> Error
        |> Block [
             jen |> Id "r" |> Op ":=" |> Qual referencePkgPath "NewAPIResolver"
                 |> Call [jen |> Id "c"; jen |> Id receiver];
             jen |> Line;
             Stmts initStatements;
             jen |> Var |> Err |> Error;
             jen |> Line;
             Stmts resolverCalls;
             jen |> Line;
             jen |> Return [jen |> Nil]]] in
  mret (f, h).

(** [NewResolveReferences] returns a [NewMethod] that writes a
    [ResolveReferences] for the given managed resource, if needed. *)
Definition NewResolveReferences (traverser : Traverser)
    (receiver clientPath referencePkgPath : string)
    (f : File) (o : types.Object) (h : heap) : result (File * heap) :=
  match types.AsNamed o with
  | None => mret (f, h)
  | Some namedType =>
      let refProcessor :=
        NewReferenceProcessor receiver
          [WithDefaultExtractor
             (jen |> Qual referencePkgPath "ExternalName" |> Call [])] in
      '(err, refProcessor, h) ← Traverse traverser namedType refProcessor h;
      match err with
      | Some e =>
          Panicked ("cannot traverse the type tree of "
                    +:+ types.ObjName namedType +:+ ": " +:+ e)
      | None =>
          writeResolveReferences receiver clientPath referencePkgPath f
            (types.OName o) (GetReferences refProcessor) h
      end
  end.

End Synthesizer.

(** The right-hand side of the recursive equation of [encapsulate], as
    the source has it. *)
Definition encapsulate_step (index : nat) (callFn : resolutionCallFn)
    (fields : loc) (h : heap) : result (Statement * heap) :=
  let fs := heap_read h fields in
  if (length fs <=? index)%nat then
    s ← callFn fields h; mret (s, h)
  else
    let field := at_ fs index in
    let fieldPath := fieldPathOf fs index in
    if strings.HasPrefix field "*" then
      let h := heap_write h fields index (cleaner_Replace (at_ fs index)) in
      '(inner, h) ← encapsulate (index + 1) callFn fields h;
      mret (jen |> If [fieldPath |> Op "!=" |> Nil] |> Block [inner], h)
    else if strings.HasPrefix field "[]" then
      let h := heap_write h fields index
                 (cleaner_Replace (at_ fs index) +:+ "[i" +:+ itoa index +:+ "]") in
      '(inner, h) ← encapsulate (index + 1) callFn fields h;
      mret (jen |> For [
              jen |> Id ("i" +:+ itoa index) |> Op ":=" |> Lit (LInt 0);
              jen |> Id ("i" +:+ itoa index) |> Op "<" |> Len fieldPath;
              jen |> Id ("i" +:+ itoa index) |> Op "++"
            ] |> Block [inner], h)
    else
      encapsulate (index + 1) callFn fields h.

(** ** What [encapsulate] does to the path and to the call *)

(** The value [encapsulate] leaves in [fields[i]]. *)
Definition narrow (i : nat) (field : string) : string :=
  if strings.HasPrefix field "*" then cleaner_Replace field
  else if strings.HasPrefix field "[]"
       then cleaner_Replace field +:+ "[i" +:+ itoa i +:+ "]"
       else field.

Definition narrow_from (index : nat) (fields : list string) : list string :=
  imap (fun i field => if (index <=? i)%nat then narrow i field else field) fields.

(** The guards and loops put around [inner] for the segments from
    [index] on, [fields] being the path as it stands at [index]. *)
Fixpoint guards_from (remaining index : nat) (fields : list string)
    (inner : Statement) : Statement :=
  match remaining with
  | O => inner
  | S remaining =>
      let field := at_ fields index in
      let fieldPath := fieldPathOf fields index in
      let fields' := <[index := narrow index field]> fields in
      if strings.HasPrefix field "*" then
        [TIf [fieldPath ++ [TOp "!="; TNil]];
         TBlock [guards_from remaining (index + 1) fields' inner]]
      else if strings.HasPrefix field "[]" then
        [TFor [[TId ("i" +:+ itoa index); TOp ":="; TLit (LInt 0)];
               [TId ("i" +:+ itoa index); TOp "<"; TLen fieldPath];
               [TId ("i" +:+ itoa index); TOp "++"]];
         TBlock [guards_from remaining (index + 1) fields' inner]]
      else guards_from remaining (index + 1) fields' inner
  end.

(** ** Names without markers *)

(** A name that holds neither "*" nor "[", as every Go identifier. *)
Fixpoint plain_name (s : string) : bool :=
  match s with
  | EmptyString => true
  | String c r => negb (Ascii.eqb c "*") && negb (Ascii.eqb c "[") && plain_name r
  end.

(** ** The guard builder of the specification

    The builder over shape-tagged segments, written after the words of
    the specification, to compare [encapsulate] with. *)

Inductive shape : Type := plain | optional | repeated.

Record segment : Type := { seg_shape : shape; seg_name : string }.

(** A segment as [GoValueFieldPath] holds it. *)
Definition tagged (seg : segment) : string :=
  match seg_shape seg with
  | plain => seg_name seg
  | optional => "*" +:+ seg_name seg
  | repeated => "[]" +:+ seg_name seg
  end.

(** The selector expression [a.b.c] of a path. *)
Definition path_expr (path : list string) : Statement :=
  match path with
  | [] => []
  | root :: fields => TId root :: (TDot <$> fields)
  end.

Definition null_guard (path : list string) (inner : Statement) : Statement :=
  [TIf [path_expr path ++ [TOp "!="; TNil]]; TBlock [inner]].

Definition bounded_loop (i : string) (path : list string) (inner : Statement)
    : Statement :=
  [TFor [[TId i; TOp ":="; TLit (LInt 0)];
         [TId i; TOp "<"; TLen (path_expr path)];
         [TId i; TOp "++"]];
   TBlock [inner]].

(** [current] is the path consumed so far, as the wrapped scope sees it. *)
Fixpoint guard_builder (emit : list string → result Statement)
    (current : list string) (segs : list segment) : result Statement :=
  match segs with
  | [] => emit current
  | seg :: rest =>
      let here := current ++ [seg_name seg] in
      match seg_shape seg with
      | plain => guard_builder emit here rest
      | optional =>
          inner ← guard_builder emit here rest;
          mret (null_guard here inner)
      | repeated =>
          let i := "i" +:+ itoa (length current) in
          inner ← guard_builder emit
                    (current ++ [seg_name seg +:+ "[" +:+ i +:+ "]"]) rest;
          mret (bounded_loop i here inner)
      end
  end.

(** The path the terminal call is given: markers gone, an indexed
    element access for every repeated segment. *)
Fixpoint qualified_path (k : nat) (segs : list segment) : list string :=
  match segs with
  | [] => []
  | seg :: rest =>
      match seg_shape seg with
      | repeated => seg_name seg +:+ "[i" +:+ itoa k +:+ "]"
      | _ => seg_name seg
      end :: qualified_path (S k) rest
  end.

(** The terminal call of a reference: the plural one for a slice, the
    singular one otherwise. *)
Definition terminalCall (ref : Reference) (referencePkgPath : string)
    : resolutionCallFn :=
  if IsSlice ref then multiResolutionCall ref referencePkgPath
  else singleResolutionCall ref referencePkgPath.

(** ** The loop over the references

    What the loop of [NewResolveReferences] emits and what it leaves in
    the store, reference by reference. *)

(** The store once the path at [l] has been gone through. *)
Definition narrowed (h : heap) (l : loc) : heap :=
  <[l := narrow_from 0 (heap_read h l)]> h.

Definition terminal_stmt (ref : Reference) (pkg : string) (h : heap) : Statement :=
  match terminalCall ref pkg (GoValueFieldPath ref) h with
  | Returned s => s
  | Panicked _ => []
  end.

(** The element of [resolverCalls] emitted for [ref] on the store [h]. *)
Definition block_of (ref : Reference) (pkg : string) (h : heap) : Statement :=
  let fields := heap_read h (GoValueFieldPath ref) in
  guards_from (length fields) 0 fields
    (terminal_stmt ref pkg (narrowed h (GoValueFieldPath ref))) ++ [TLine].

Fixpoint blocks_of (pkg : string) (refs : list Reference) (h : heap)
    : list Statement :=
  match refs with
  | [] => []
  | ref :: refs =>
      block_of ref pkg h :: blocks_of pkg refs (narrowed h (GoValueFieldPath ref))
  end.

Fixpoint store_after (refs : list Reference) (h : heap) : heap :=
  match refs with
  | [] => h
  | ref :: refs => store_after refs (narrowed h (GoValueFieldPath ref))
  end.

(** A field without marker is a field the guard builder leaves alone. *)
Definition unmarked (field : string) : Prop :=
  strings.HasPrefix field "*" = false ∧ strings.HasPrefix field "[]" = false.

(** ** Read-only value paths *)

(** Synthesis leaves the value path of every reference as the extractor
    built it. *)
Definition value_paths_read_only : Prop :=
  ∀ receiver clientPath pkg (f f' : File) oName refs (h h' : heap),
    writeResolveReferences receiver clientPath pkg f oName refs h = Returned (f', h') →
    Forall (λ ref, heap_read h' (GoValueFieldPath ref)
                   = heap_read h (GoValueFieldPath ref)) refs.

(** ** The extractor on a marked field *)

(** The first value of a marker, or [dflt] when the marker is absent. *)
Definition first_value (markers : gmap string (list string)) (key dflt : string)
    : string :=
  match markers !! key with
  | Some (v :: _) => v
  | _ => dflt
  end.

(** The parser gives at least one value for every key it reports. *)
Definition values_present (markers : gmap string (list string)) : Prop :=
  ∀ key, markers !! key ≠ Some [].

(** The [Reference] built for a marked field. *)
Definition reference_of (rp : ReferenceProcessor) (f : types.Var)
    (markers : gmap string (list string)) (refType : string) (path : loc)
    : Reference :=
  let '(isPointer, isList, sourceType) := fieldShape (types.Type' f) in
  {| SourceType := sourceType;
     SourceName := types.Name f;
     RemoteType := getTypeCodeFromPath refType [];
     RemoteListType := getTypeCodeFromPath refType ["List"];
     Extractor :=
       match markers !! ReferenceExtractorMarker with
       | Some (v :: _) => getFuncCodeFromPath v
       | _ => DefaultExtractor rp
       end;
     GoValueFieldPath := path;
     GoRefFieldName :=
       first_value markers ReferenceReferenceFieldNameMarker
         (if isList then types.Name f +:+ "Refs" else types.Name f +:+ "Ref");
     GoSelectorFieldName :=
       first_value markers ReferenceSelectorFieldNameMarker
         (types.Name f +:+ "Selector");
     IsPointer := isPointer;
     IsSlice := isList |}.

(** ** Declarations in the emitted method *)

(** The declarations [var name ...] met at the head of a statement and
    anywhere along it. *)
Fixpoint var_ids (name : string) (s : Statement) : nat :=
  match s with
  | [] => 0
  | TVar :: rest =>
      match rest with
      | TId x :: _ => (if String.eqb x name then 1 else 0) + var_ids name rest
      | _ => var_ids name rest
      end
  | _ :: rest => var_ids name rest
  end.

(** Declarations are statements: they are looked for in the statements
    of blocks and of statement lists, at any depth. *)
Fixpoint declarations_in (name : string) (c : Code) : nat :=
  match c with
  | TBlock statements =>
      fold_right (λ s n,
        (var_ids name s + fold_right (λ c n, declarations_in name c + n) 0 s + n)%nat)
        0%nat statements
  | TStmt s =>
      (var_ids name s + fold_right (λ c n, declarations_in name c + n) 0 s)%nat
  | _ => 0%nat
  end.

Definition declarations (name : string) (s : Statement) : nat :=
  (var_ids name s + fold_right (λ c n, declarations_in name c + n) 0 s)%nat.

(** A selector expression is made of names only. *)
Definition is_selector (c : Code) : bool :=
  match c with
  | TId _ | TDot _ => true
  | _ => false
  end.

Ltac unfold_jen :=
  unfold Clone, Id, Op, Lit, Nil, Err, Error, Var, Func, Line, Dot, Qual,
    Commentf, Call, Params, Block, If, For, Return, List, Make, Len, Values,
    Dict, jen;
  rewrite <- ?app_assoc; cbn [app].

(** ** The control flow of the emitted method

    An abstract run of the emitted statements.  What a lookup or a
    conversion reports, whether a guarded path is nil and how long a
    slice is are drawn from [oracle], so that the runs are all the paths
    through the method; [err] is the error variable, [returned] is set by
    a return statement, after which nothing runs, and [trace] lists the
    lookup calls made with what each reported. *)

Inductive event : Type := Lookup (failed : bool).

Record machine : Type := {
  err : bool;
  returned : bool;
  times : option nat;
  oracle : list nat;
  trace : list event
}.

Definition draw (m : machine) : nat * machine :=
  (hd 0%nat (oracle m),
   {| err := err m; returned := returned m; times := times m;
      oracle := tl (oracle m); trace := trace m |}).

(** A call whose error result is assigned to [err]. *)
Definition fallible (lookup : bool) (m : machine) : machine :=
  let '(n, m) := draw m in
  let failed := negb (n =? 0)%nat in
  {| err := failed; returned := returned m; times := times m; oracle := oracle m;
     trace := if lookup then trace m ++ [Lookup failed] else trace m |}.

Definition do_return (m : machine) : machine :=
  {| err := err m; returned := true; times := times m; oracle := oracle m;
     trace := trace m |}.

(** How often the block that comes next is to run. *)
Definition set_times (t : option nat) (m : machine) : machine :=
  {| err := err m; returned := returned m; times := t; oracle := oracle m;
     trace := trace m |}.

(** [err != nil]. *)
Definition tests_err (cond : Statement) : bool :=
  match cond with
  | [TErr; TOp _; TNil] => true
  | _ => false
  end.

(** [err = ...]. *)
Definition assigns_err (cond : Statement) : bool :=
  match cond with
  | TErr :: TOp _ :: _ => true
  | _ => false
  end.

Definition guess (m : machine) : bool * machine :=
  let '(n, m) := draw m in (negb (n =? 0)%nat, m).

(** The conditions of an [if]: a test of [err], alone or after a
    conversion assigned to it, or a test of a path against nil. *)
Definition eval_conds (conds : list Statement) (m : machine) : bool * machine :=
  match conds with
  | [test] => if tests_err test then (err m, m) else guess m
  | [init; test] =>
      if assigns_err init && tests_err test
      then let m := fallible false m in (err m, m)
      else guess m
  | _ => guess m
  end.

Definition run_seq (step : Code → machine → machine) (s : Statement) (m : machine)
    : machine :=
  foldl (λ m c, if returned m then m else step c m) m s.

Definition run_block (step : Code → machine → machine) (statements : list Statement)
    (m : machine) : machine :=
  foldl (λ m s, run_seq step s m) m statements.

(** One token of a statement.  An assignment to a response variable and
    [err] is a lookup; the header of an [if] or a [for] fixes how often
    the block after it runs; a block with no header runs once. *)
Fixpoint exec_code (c : Code) (m : machine) {struct c} : machine :=
  match c with
  | TList [_; [TErr]] => fallible true m
  | TIf conds =>
      let '(b, m) := eval_conds conds m in
      set_times (Some (if b then 1 else 0)%nat) m
  | TFor _ => let '(n, m) := draw m in set_times (Some n) m
  | TBlock statements =>
      Nat.iter (default 1%nat (times m)) (run_block exec_code statements)
        (set_times None m)
  | TReturn _ => do_return m
  | TStmt s => run_seq exec_code s m
  | _ => m
  end.

Definition exec (s : Statement) (m : machine) : machine := run_seq exec_code s m.

(** The method is entered with a nil [err]. *)
Definition start (oracle : list nat) : machine :=
  {| err := false; returned := false; times := None; oracle := oracle; trace := [] |}.

(** No lookup is made after one that failed. *)
Definition failure_is_last (t : list event) : Prop :=
  ∀ before after, t = before ++ Lookup true :: after → after = [].

Definition all_ok (t : list event) : Prop := Forall (λ e, e = Lookup false) t.

(** What holds between two statements of the method: no block is
    pending, and every lookup made reported success, but for the last one
    once the method has returned. *)
Definition settled (m : machine) : Prop :=
  times m = None
  ∧ all_ok (if returned m then removelast (trace m) else trace m).

Definition keeps_settled (s : Statement) : Prop :=
  ∀ m, settled m → settled (exec s m).

(** Tokens that do nothing to the run when met along a statement. *)
Definition is_simple (c : Code) : bool :=
  match c with
  | TList _ | TIf _ | TFor _ | TBlock _ | TReturn _ | TStmt _ => false
  | _ => true
  end.

(** The check emitted after a lookup: return the error wrapped with
    [context]. *)
Definition failure_check (context : string) : Statement :=
  [TIf [[TErr; TOp "!="; TNil]];
   TBlock [[TReturn [[TQual "github.com/pkg/errors" "Wrap";
                      TCall [[TErr]; [TLit (LString context)]]]]]]].

(** The lookup call: the response variable and [err] assigned from a
    method of the resolver [r]. *)
Definition is_lookup (s : Statement) : Prop :=
  ∃ rsp method args,
    s = [TList [[TId rsp]; [TErr]]; TOp "="; TId "r"; TDot method; TCall args]
    ∧ (method = "Resolve" ∨ method = "ResolveMultiple").

(** ** The paths the extractor builds *)

(** Every reference owns an array of its own, which is not empty. *)
Definition paths_ok (refs : list Reference) (h : heap) : Prop :=
  NoDup (GoValueFieldPath <$> refs)
  ∧ Forall (λ ref, (GoValueFieldPath ref < length h)%nat
                   ∧ heap_read h (GoValueFieldPath ref) ≠ []) refs.

(** ** Examples *)

(** A marker parser to run examples with: every line of the comment that
    starts with "+" is a marker, its key the text up to the first "="
    and its value the text after it. *)
Module Example_markers.

Fixpoint cut (s : string) : string * string :=
  match s with
  | EmptyString => (EmptyString, EmptyString)
  | String c r =>
      if Ascii.eqb c "=" then (EmptyString, r)
      else let '(k, v) := cut r in (String c k, v)
  end.

Definition parseLine (m : gmap string (list string)) (line : string)
    : gmap string (list string) :=
  match line with
  | String c r =>
      if Ascii.eqb c "+" then
        let '(k, v) := cut r in
        <[k := default [] (m !! k) ++ [v]]> m
      else m
  | EmptyString => m
  end.

Definition parse (comment : string) : gmap string (list string) :=
  foldl parseLine ∅ (strings.Split1 comment "010"%char).

End Example_markers.

Definition demo_visit (parents : list string) (name : string) (t : types.Type_)
    (comment : string) : FieldVisit :=
  {| vNamed := {| types.ObjName := "Demo" |};
     vField := {| types.Name := name; types.Type' := t |};
     vTag := EmptyString; vComment := comment; vParents := parents |}.

Definition demo_object : types.Object :=
  {| types.OName := "Demo"; types.AsNamed := Some {| types.ObjName := "Demo" |} |}.

Definition demo_ref (path : loc) (isSlice isPointer : bool) : Reference :=
  {| RemoteType := getTypeCodeFromPath "Subnet" [];
     Extractor := jen |> Qual "reference" "ExternalName" |> Call [];
     RemoteListType := getTypeCodeFromPath "Subnet" ["List"];
     GoValueFieldPath := path;
     GoRefFieldName := "SubnetIDRef";
     GoSelectorFieldName := "SubnetIDSelector";
     IsSlice := isSlice;
     IsPointer := isPointer;
     SourceType := "string";
     SourceName := "SubnetID" |}.

Definition demo_segments : list segment :=
  [ {| seg_shape := plain; seg_name := "mg" |};
    {| seg_shape := optional; seg_name := "Spec" |};
    {| seg_shape := repeated; seg_name := "Subnets" |};
    {| seg_shape := plain; seg_name := "SubnetID" |} ].

Definition demo_processor : ReferenceProcessor :=
  NewReferenceProcessor "mg"
    [WithDefaultExtractor (jen |> Qual "reference" "ExternalName" |> Call [])].

Definition demo_field (name : string) (t : types.Type_) : types.Var :=
  {| types.Name := name; types.Type' := t |}.

Definition nl : string := String "010"%char EmptyString.

Definition demo_comment : string :=
  "SubnetID of the subnet." +:+ nl
  +:+ "+crossplane:generate:reference:type=github.com/acme/ec2.Subnet" +:+ nl
  +:+ "+crossplane:generate:reference:refFieldName=FooRef".

Definition demo_plain_walk : Traverser := fun _ =>
  {| visits := [demo_visit ["Spec"] "Region" (types.Basic "string")
                  "Region of the resource.";
                demo_visit ["Spec"] "Tags" (types.Slice (types.Basic "string"))
                  "Tags of the resource."];
     failure := None |}.

Definition demo_refs : list Reference :=
  [demo_ref 0 false true; demo_ref 1 false false; demo_ref 2 true true].

Definition demo_heap : heap :=
  [["mg"; "*Spec"; "SubnetID"]; ["mg"; "VpcID"]; ["mg"; "[]Zones"; "ZoneIDs"]].


(** ** Characters of a string *)

(** Whether [c] occurs in [s]. *)
Fixpoint has_char (c : ascii) (s : string) : bool :=
  match s with
  | EmptyString => false
  | String c' r => Ascii.eqb c' c || has_char c r
  end.

(** ** Guards and loops by marker *)

Inductive wrapper : Type := null_check | loop.

(** The wrapper a field asks for, by its prefix. *)
Definition mark_of (field : string) : option wrapper :=
  if strings.HasPrefix field "*" then Some null_check
  else if strings.HasPrefix field "[]" then Some loop
  else None.

(** [wrapped ws inner s]: [s] is [inner] inside the wrappers [ws], the
    first of them outermost. *)
Inductive wrapped : list wrapper → Statement → Statement → Prop :=
  | wrapped_nil inner : wrapped [] inner inner
  | wrapped_if ws inner s conditions :
      wrapped ws inner s →
      wrapped (null_check :: ws) inner [TIf conditions; TBlock [s]]
  | wrapped_for ws inner s clauses :
      wrapped ws inner s →
      wrapped (loop :: ws) inner [TFor clauses; TBlock [s]].

(** ** The variables of the loops *)

(** The variable a [for] header declares. *)
Definition for_var (clauses : list Statement) : list string :=
  match clauses with
  | (TId v :: _) :: _ => [v]
  | _ => []
  end.

(** The loop variables of a statement, outermost first. *)
Fixpoint loop_vars_in (c : Code) : list string :=
  match c with
  | TFor clauses => for_var clauses
  | TBlock statements => flat_map (flat_map loop_vars_in) statements
  | TStmt s => flat_map loop_vars_in s
  | _ => []
  end.

Definition loop_vars (s : Statement) : list string := flat_map loop_vars_in s.

(** The names [encapsulate] gives the loops of the fields from position
    [k] on. *)
Fixpoint loop_names (k : nat) (fields : list string) : list string :=
  match fields with
  | [] => []
  | field :: fields =>
      match mark_of field with
      | Some loop => ["i" +:+ itoa k]
      | _ => []
      end ++ loop_names (S k) fields
  end.

(** ** The request of a terminal call *)

(** The value a dictionary gives the key [key]. *)
Fixpoint dict_get (key : string) (entries : list (Statement * Statement))
    : option Statement :=
  match entries with
  | [] => None
  | (k, v) :: entries =>
      match k with
      | [TId k'] => if String.eqb k' key then Some v else dict_get key entries
      | _ => dict_get key entries
      end
  end.

(** The entries of the request a terminal call hands to the resolver. *)
Definition request_of (call : Statement) : option (list (Statement * Statement)) :=
  match call with
  | TStmt [TList _; TOp _; TId _; TDot _;
           TCall [_; [TQual _ _; TValues [[TDict entries]]]]] :: _ => Some entries
  | _ => None
  end.

(** ** The extractor along a walk *)

(** A visit whose comment carries the reference-type marker. *)
Definition is_marked (ParseMarkers : string → gmap string (list string))
    (v : FieldVisit) : bool :=
  negb (length (default [] (ParseMarkers (vComment v) !! ReferenceTypeMarker)) =? 0)%nat.

(** The path [Process] builds for a visit. *)
Definition path_of (receiver : string) (v : FieldVisit) : list string :=
  receiver :: vParents v ++ [types.Name (vField v)].

(** A walk over three fields, the last two marked. *)
Definition demo_marked_walk : list FieldVisit :=
  [demo_visit ["Spec"] "Region" (types.Basic "string") "Region of the resource.";
   demo_visit ["*Spec"] "VpcID" (types.Pointer (types.Basic "string")) demo_comment;
   demo_visit ["*Spec"; "[]Subnets"] "SubnetID" (types.Basic "string") demo_comment].

(** ** Runs of the emitted method *)

(** A path with a marker on one of its fields: the call for it is
    emitted inside a guard or a loop. *)
Definition guarded (fields : list string) : bool :=
  existsb (λ field, strings.HasPrefix field "*" || strings.HasPrefix field "[]")
    fields.

(** A machine on its way through the method in a run in which no call
    fails and every guarded field is nil or empty: a nil [err], not
    returned, no block pending, and nothing but zeros left to draw. *)
Definition calm (m : machine) : Prop :=
  err m = false ∧ returned m = false ∧ times m = None
  ∧ Forall (λ n, n = 0%nat) (oracle m).

(** [adds events s]: in such a run [s] makes the lookups [events]. *)
Definition adds (events : list event) (s : Statement) : Prop :=
  ∀ m, calm m → calm (exec s m) ∧ trace (exec s m) = trace m ++ events.

(** The lookups the block of [ref] makes in such a run. *)
Definition quiet_lookups (h : heap) (ref : Reference) : list event :=
  if guarded (heap_read h (GoValueFieldPath ref)) then [] else [Lookup false].

(** * Properties *)

(** ** The store *)

Lemma heap_read_write_same (h : heap) (l : loc) i v :
  heap_read (heap_write h l i v) l = <[i := v]> (heap_read h l).
Proof.
  unfold heap_write, heap_read.
  destruct (decide (l < length h)%nat) as [Hl | Hl].
  - by rewrite list_lookup_insert_eq.
  - rewrite list_insert_ge by lia.
    rewrite (lookup_ge_None_2 h l) by lia. by destruct i.
Qed.

Lemma heap_read_write_other (h : heap) (l l' : loc) i v :
  l ≠ l' → heap_read (heap_write h l i v) l' = heap_read h l'.
Proof.
  intros Hne. unfold heap_write, heap_read.
  by rewrite list_lookup_insert_ne.
Qed.

Lemma heap_write_length (h : heap) (l l' : loc) i v :
  length (heap_read (heap_write h l i v) l') = length (heap_read h l').
Proof.
  destruct (decide (l = l')) as [<- | Hne].
  - by rewrite heap_read_write_same, length_insert.
  - by rewrite heap_read_write_other.
Qed.

(** ** The equation of [encapsulate]

    The bound [encapsulate] starts from is never used up: the function
    satisfies the recursive equation of the source as it stands. *)

Lemma encapsulate_unfold index callFn fields h :
  encapsulate index callFn fields h = encapsulate_step index callFn fields h.
Proof.
  unfold encapsulate, encapsulate_step.
  destruct (length (heap_read h fields) <=? index)%nat eqn:Hlen.
  - destruct (length (heap_read h fields) - index)%nat; simpl; by rewrite Hlen.
  - apply Nat.leb_gt in Hlen.
    destruct (length (heap_read h fields) - index)%nat as [|k] eqn:Hk; [lia|].
    cbn [encapsulate_from]. apply Nat.leb_gt in Hlen. rewrite Hlen.
    unfold encapsulate. rewrite !heap_write_length.
    replace (length (heap_read h fields) - (index + 1))%nat with k by lia.
    reflexivity.
Qed.

(** ** What [encapsulate] does to the path and to the call

    [encapsulate] calls [callFn] once, on the store in which every
    segment from [index] on has been narrowed, and wraps what it returns. *)

Lemma narrow_from_all index (fields : list string) :
  (length fields <= index)%nat → narrow_from index fields = fields.
Proof.
  intros Hlen. apply list_eq. intros i. unfold narrow_from.
  rewrite list_lookup_imap.
  destruct (fields !! i) as [x|] eqn:Hx; [|done]. simpl.
  apply lookup_lt_Some in Hx.
  destruct (index <=? i)%nat eqn:Hi; [apply Nat.leb_le in Hi; lia | done].
Qed.

Lemma narrow_from_step index (fields : list string) :
  (index < length fields)%nat →
  narrow_from (index + 1) (<[index := narrow index (at_ fields index)]> fields)
  = narrow_from index fields.
Proof.
  intros Hlen. apply list_eq. intros i. unfold narrow_from.
  rewrite !list_lookup_imap.
  destruct (decide (i = index)) as [-> | Hne].
  - rewrite list_lookup_insert_eq by done.
    unfold at_. destruct (fields !! index) as [x|] eqn:Hx.
    + simpl. rewrite Nat.leb_refl.
      destruct (index + 1 <=? index)%nat eqn:Hi; [apply Nat.leb_le in Hi; lia | done].
    + apply lookup_ge_None in Hx. lia.
  - rewrite list_lookup_insert_ne by done.
    destruct (fields !! i) as [x|]; [|done]. simpl.
    destruct (index + 1 <=? i)%nat eqn:H1, (index <=? i)%nat eqn:H2; try done.
    + apply Nat.leb_le in H1. apply Nat.leb_gt in H2. lia.
    + apply Nat.leb_gt in H1. apply Nat.leb_le in H2. lia.
Qed.

Lemma narrow_from_length index (fields : list string) :
  length (narrow_from index fields) = length fields.
Proof. unfold narrow_from. by rewrite length_imap. Qed.

Lemma heap_write_insert (h : heap) (l : loc) i v (fields : list string) :
  <[l := fields]> (heap_write h l i v) = <[l := fields]> h.
Proof. unfold heap_write. by rewrite list_insert_insert_eq. Qed.

Lemma heap_insert_read (h : heap) (l : loc) :
  <[l := heap_read h l]> h = h.
Proof.
  unfold heap_read. destruct (h !! l) as [x|] eqn:Hx; simpl.
  - by apply list_insert_id.
  - apply list_insert_ge. by apply lookup_ge_None.
Qed.

Lemma encapsulate_factor callFn (l : loc) remaining :
  ∀ index (h : heap),
    remaining = (length (heap_read h l) - index)%nat →
    encapsulate index callFn l h =
      (let h' := <[l := narrow_from index (heap_read h l)]> h in
       s ← callFn l h';
       mret (guards_from remaining index (heap_read h l) s, h')).
Proof.
  induction remaining as [|k IH]; intros index h Hrem;
    rewrite encapsulate_unfold; unfold encapsulate_step; cbn zeta.
  - assert (length (heap_read h l) <= index)%nat as Hlen by lia.
    rewrite narrow_from_all, heap_insert_read by done.
    apply Nat.leb_le in Hlen. by rewrite Hlen.
  - assert (index < length (heap_read h l))%nat as Hlen by lia.
    pose proof Hlen as Hlt. apply Nat.leb_gt in Hlt. rewrite Hlt.
    cbn [guards_from].
    destruct (strings.HasPrefix (at_ (heap_read h l) index) "*") eqn:Hstar;
      [|destruct (strings.HasPrefix (at_ (heap_read h l) index) "[]") eqn:Hrep].
    + rewrite IH by (rewrite heap_write_length; lia).
      cbn zeta. rewrite heap_read_write_same, heap_write_insert.
      replace (cleaner_Replace (at_ (heap_read h l) index))
        with (narrow index (at_ (heap_read h l) index))
        by (unfold narrow; by rewrite Hstar).
      rewrite narrow_from_step by done.
      destruct (callFn l _); [|done]. cbn.
      unfold Block, If, Nil, Op, jen. by rewrite <- app_assoc.
    + rewrite IH by (rewrite heap_write_length; lia).
      cbn zeta. rewrite heap_read_write_same, heap_write_insert.
      replace (cleaner_Replace (at_ (heap_read h l) index) +:+ "[i" +:+ itoa index +:+ "]")
        with (narrow index (at_ (heap_read h l) index))
        by (unfold narrow; by rewrite Hstar, Hrep).
      rewrite narrow_from_step by done.
      by destruct (callFn l _).
    + rewrite IH by lia. cbn zeta.
      assert (narrow index (at_ (heap_read h l) index) = at_ (heap_read h l) index) as Hn
        by (unfold narrow; by rewrite Hstar, Hrep).
      rewrite <- (narrow_from_step index) by done.
      rewrite Hn.
      assert (<[index := at_ (heap_read h l) index]> (heap_read h l) = heap_read h l) as ->.
      { apply list_insert_id. unfold at_.
        destruct (heap_read h l !! index) eqn:Hx; [done|].
        apply lookup_ge_None in Hx. lia. }
      done.
Qed.

(** ** Names without markers *)

Lemma plain_name_app s t :
  plain_name s = true → plain_name t = true → plain_name (s +:+ t) = true.
Proof.
  induction s as [|c s IH]; simpl; [done|].
  intros [[H1 H2]%andb_prop H3]%andb_prop Ht.
  by rewrite H1, H2, IH.
Qed.

Lemma cleaner_Replace_plain_app s t :
  plain_name s = true → cleaner_Replace (s +:+ t) = s +:+ cleaner_Replace t.
Proof.
  induction s as [|c s IH]; [done|]. cbn [plain_name].
  intros [[H1 H2]%andb_prop H3]%andb_prop.
  apply negb_true_iff in H1, H2.
  change (String c s +:+ t) with (String c (s +:+ t)).
  cbn [cleaner_Replace]. rewrite H1, H2. by rewrite IH.
Qed.

Lemma cleaner_Replace_plain s :
  plain_name s = true → cleaner_Replace s = s.
Proof.
  induction s as [|c s IH]; [done|]. cbn [plain_name].
  intros [[H1 H2]%andb_prop H3]%andb_prop.
  apply negb_true_iff in H1, H2.
  cbn [cleaner_Replace]. rewrite H1, H2. by rewrite IH.
Qed.

Lemma prefix_String a s1 b s2 :
  String.prefix (String a s1) (String b s2) = Ascii.eqb a b && String.prefix s1 s2.
Proof.
  cbn -[ascii_dec]. destruct (ascii_dec a b) as [->|Hne].
  - by rewrite Ascii.eqb_refl.
  - apply Ascii.eqb_neq in Hne. by rewrite Hne.
Qed.

Lemma HasPrefix_plain s :
  plain_name s = true →
  strings.HasPrefix s "*" = false ∧ strings.HasPrefix s "[]" = false.
Proof.
  destruct s as [|c s]; [done|]. cbn [plain_name].
  intros [[H1 H2]%andb_prop H3]%andb_prop.
  apply negb_true_iff in H1, H2.
  unfold strings.HasPrefix. rewrite !prefix_String.
  rewrite (Ascii.eqb_sym "*"), (Ascii.eqb_sym "["), H1, H2. done.
Qed.

Lemma plain_name_digits d : plain_name (NilEmpty.string_of_uint d) = true.
Proof. induction d; simpl; done. Qed.

Lemma plain_name_itoa n : plain_name (itoa n) = true.
Proof.
  unfold itoa, NilZero.string_of_uint.
  destruct (Nat.to_uint n); try done; apply plain_name_digits.
Qed.

(** An indexed element access [name[i<k>]] is left as it is by the
    cleaner. *)
Lemma cleaner_Replace_indexed name k :
  plain_name name = true →
  cleaner_Replace (name +:+ "[i" +:+ itoa k +:+ "]") = name +:+ "[i" +:+ itoa k +:+ "]".
Proof.
  intros Hn. rewrite cleaner_Replace_plain_app by done. f_equal.
  change ("[i" +:+ itoa k +:+ "]") with (String "[" (String "i" (itoa k +:+ "]"))).
  cbn [cleaner_Replace]. simpl Ascii.eqb. cbv iota.
  f_equal. f_equal.
  rewrite cleaner_Replace_plain_app by apply plain_name_itoa. done.
Qed.

(** ** [encapsulate] and the guard builder of the specification *)

Lemma path_expr_snoc path x :
  path ≠ [] → path_expr (path ++ [x]) = path_expr path ++ [TDot x].
Proof.
  destruct path as [|r p]; [done|]. intros _. simpl.
  by rewrite fmap_app.
Qed.

Lemma fieldPathOf_path_expr (fields : list string) index :
  (index < length fields)%nat →
  fieldPathOf fields index = path_expr (cleaner_Replace <$> take (S index) fields).
Proof.
  unfold fieldPathOf. induction index as [|n IH]; intros Hlen.
  - destruct fields as [|f fs]; [simpl in Hlen; lia|]. done.
  - rewrite seq_S, foldl_app. cbn [foldl]. rewrite IH by lia.
    destruct (fields !! S n) as [x|] eqn:Hx;
      [|apply lookup_ge_None in Hx; lia].
    rewrite (take_S_r fields (S n) x) by done.
    rewrite fmap_app.
    change (cleaner_Replace <$> [x]) with [cleaner_Replace x].
    rewrite path_expr_snoc.
    + unfold Dot, at_. cbn [Nat.add]. by rewrite Hx.
    + destruct fields; [simpl in Hlen; lia|done].
Qed.

Lemma tagged_narrow k seg :
  plain_name (seg_name seg) = true →
  narrow k (tagged seg) = match seg_shape seg with
                          | repeated => seg_name seg +:+ "[i" +:+ itoa k +:+ "]"
                          | _ => seg_name seg
                          end
  ∧ cleaner_Replace (tagged seg) = seg_name seg
  ∧ cleaner_Replace (narrow k (tagged seg)) = narrow k (tagged seg).
Proof.
  intros Hn. pose proof (HasPrefix_plain _ Hn) as [H1 H2].
  pose proof (cleaner_Replace_plain _ Hn) as Hc.
  unfold narrow, tagged. destruct (seg_shape seg).
  - by rewrite H1, H2, Hc.
  - change ("*" +:+ seg_name seg) with (String "*" (seg_name seg)).
    unfold strings.HasPrefix. rewrite prefix_String.
    replace (String.prefix EmptyString (seg_name seg)) with true
      by (by destruct (seg_name seg)).
    cbn. by rewrite Hc.
  - change ("[]" +:+ seg_name seg) with (String "[" (String "]" (seg_name seg))).
    unfold strings.HasPrefix. rewrite !prefix_String.
    replace (String.prefix EmptyString (seg_name seg)) with true
      by (by destruct (seg_name seg)).
    cbn [Ascii.eqb Bool.eqb andb cleaner_Replace]. cbv iota.
    rewrite Hc. split; [done|]. split; [done|].
    by apply cleaner_Replace_indexed.
Qed.

Lemma tagged_HasPrefix seg :
  plain_name (seg_name seg) = true →
  strings.HasPrefix (tagged seg) "*"
    = match seg_shape seg with optional => true | _ => false end
  ∧ strings.HasPrefix (tagged seg) "[]"
    = match seg_shape seg with repeated => true | _ => false end.
Proof.
  intros Hn. pose proof (HasPrefix_plain _ Hn) as [H1 H2].
  unfold tagged. destruct (seg_shape seg); [done| |].
  - change ("*" +:+ seg_name seg) with (String "*" (seg_name seg)).
    unfold strings.HasPrefix. rewrite !prefix_String.
    replace (String.prefix EmptyString (seg_name seg)) with true
      by (by destruct (seg_name seg)).
    done.
  - change ("[]" +:+ seg_name seg) with (String "[" (String "]" (seg_name seg))).
    unfold strings.HasPrefix. rewrite !prefix_String.
    replace (String.prefix EmptyString (seg_name seg)) with true
      by (by destruct (seg_name seg)).
    done.
Qed.

Lemma insert_middle (done rest : list string) x y :
  <[length done := y]> (done ++ x :: rest) = (done ++ [y]) ++ rest.
Proof.
  rewrite insert_app_r_alt, Nat.sub_diag by lia. simpl.
  by rewrite <- app_assoc.
Qed.

Lemma at_middle (done rest : list string) x :
  at_ (done ++ x :: rest) (length done) = x.
Proof. unfold at_. by rewrite list_lookup_middle. Qed.

Lemma narrow_from_tagged segs :
  ∀ done : list string,
    Forall (λ seg, plain_name (seg_name seg) = true) segs →
    narrow_from (length done) (done ++ (tagged <$> segs))
    = done ++ qualified_path (length done) segs.
Proof.
  induction segs as [|seg rest IH]; intros done Hplain.
  - simpl. rewrite narrow_from_all; [done|]. by rewrite app_nil_r.
  - inversion Hplain as [|? ? Hseg Hrest]; subst.
    rewrite fmap_cons.
    rewrite <- (narrow_from_step (length done)) by (rewrite length_app; simpl; lia).
    rewrite at_middle, insert_middle.
    replace (length done + 1)%nat with (length (done ++ [narrow (length done) (tagged seg)]))
      by (rewrite length_app; simpl; lia).
    rewrite IH by done. rewrite <- app_assoc. simpl.
    rewrite length_app. simpl. rewrite Nat.add_1_r.
    destruct (tagged_narrow (length done) seg Hseg) as [-> _]. done.
Qed.

Lemma guard_builder_guards emit segs :
  ∀ done : list string,
    Forall (λ seg, plain_name (seg_name seg) = true) segs →
    Forall (λ s, cleaner_Replace s = s) done →
    guard_builder emit done segs =
      (s ← emit (done ++ qualified_path (length done) segs);
       mret (guards_from (length segs) (length done) (done ++ (tagged <$> segs)) s)).
Proof.
  induction segs as [|seg rest IH]; intros done Hplain Hdone.
  - simpl. rewrite app_nil_r. by destruct (emit done).
  - inversion Hplain as [|? ? Hseg Hrest]; subst.
    destruct (tagged_narrow (length done) seg Hseg) as (Hnarrow & Hclean & Hfixed).
    destruct (tagged_HasPrefix seg Hseg) as [Hstar Hrep].
    rewrite fmap_cons. cbn [guard_builder guards_from length qualified_path].
    rewrite at_middle, insert_middle, Hstar, Hrep.
    rewrite fieldPathOf_path_expr by (rewrite length_app; simpl; lia).
    replace (take (S (length done)) (done ++ tagged seg :: (tagged <$> rest)))
      with (done ++ [tagged seg])
      by (rewrite take_app, take_ge, Nat.sub_succ_l, Nat.sub_diag by lia; done).
    rewrite fmap_app.
    change (cleaner_Replace <$> [tagged seg]) with [cleaner_Replace (tagged seg)].
    rewrite Hclean.
    replace (cleaner_Replace <$> done) with done.
    2:{ clear -Hdone. induction Hdone as [|x l Hx _ IHl]; [done|].
        rewrite fmap_cons, Hx. by f_equal. }
    assert (∀ q, length (done ++ [q]) = S (length done)) as Hlen
      by (intros q; rewrite length_app; simpl; lia).
    replace (length done + 1)%nat with (S (length done)) by lia.
    rewrite Hnarrow.
    destruct (seg_shape seg).
    + rewrite IH; [|done|by apply Forall_app; split; [|constructor; [by apply cleaner_Replace_plain|]]].
      by rewrite Hlen, <- !app_assoc.
    + rewrite IH; [|done|by apply Forall_app; split; [|constructor; [by apply cleaner_Replace_plain|]]].
      rewrite Hlen, <- !app_assoc.
      by destruct (emit _).
    + rewrite IH; [|done|].
      * rewrite Hlen, <- !app_assoc. by destruct (emit _).
      * apply Forall_app; split; [done|]. constructor; [|done].
        change (seg_name seg +:+ "[" +:+ "i" +:+ itoa (length done) +:+ "]")
          with (seg_name seg +:+ "[i" +:+ itoa (length done) +:+ "]").
        by apply cleaner_Replace_indexed.
Qed.

(** [encapsulate] started at the end of a consumed prefix [done] is the
    builder of the specification on the segments that remain. *)
Lemma encapsulate_guard_builder callFn (l : loc) (h : heap) (done : list string) segs :
  Forall (λ seg, plain_name (seg_name seg) = true) segs →
  Forall (λ s, cleaner_Replace s = s) done →
  h !! l = Some (done ++ (tagged <$> segs)) →
  encapsulate (length done) callFn l h =
    (s ← guard_builder (λ path, callFn l (<[l := path]> h)) done segs;
     mret (s, <[l := done ++ qualified_path (length done) segs]> h)).
Proof.
  intros Hplain Hdone Hl.
  assert (heap_read h l = done ++ (tagged <$> segs)) as Hread
    by (unfold heap_read; by rewrite Hl).
  rewrite (encapsulate_factor callFn l (length segs))
    by (rewrite Hread, length_app, length_fmap; lia).
  cbn zeta. rewrite Hread, narrow_from_tagged by done.
  rewrite guard_builder_guards by done.
  by destruct (callFn l _).
Qed.

Lemma terminalCall_returns ref pkg (l : loc) (h : heap) :
  heap_read h l ≠ [] → ∃ s, terminalCall ref pkg l h = Returned s.
Proof.
  intros Hne. unfold terminalCall, multiResolutionCall, singleResolutionCall.
  destruct (IsSlice ref), (IsPointer ref), (heap_read h l) as [|x fs] eqn:Hfs;
    try done; cbn; eexists; reflexivity.
Qed.

(** ** Claims about the guard builder *)

(** C1: on a path given as shape-tagged segments, [encapsulate] is the
    guard builder: segments are consumed left to right, an optional one
    gives a null guard around the rest with its marker stripped, a
    repeated one a loop from 0 below the length of the current path around
    the rest with the segment turned into an indexed element access, a
    plain one nothing, and at the end the terminal call is made on the
    fully qualified path. *)
Theorem encapsulate_is_guard_builder callFn (fields : loc) (h : heap) segs :
  Forall (λ seg, plain_name (seg_name seg) = true) segs →
  h !! fields = Some (tagged <$> segs) →
  encapsulate 0 callFn fields h =
    (s ← guard_builder (λ path, callFn fields (<[fields := path]> h)) [] segs;
     mret (s, <[fields := qualified_path 0 segs]> h)).
Proof.
  intros Hplain Hl.
  by apply (encapsulate_guard_builder callFn fields h [] segs).
Qed.

Lemma encapsulate_is_guard_builder_witness :
  let callFn := singleResolutionCall (demo_ref 0 false true) "reference" in
  let h : heap := [tagged <$> demo_segments] in
  encapsulate 0 callFn 0%nat h =
    (s ← guard_builder (λ path, callFn 0%nat (<[0%nat := path]> h)) [] demo_segments;
     mret (s, <[0%nat := qualified_path 0 demo_segments]> h)).
Proof.
  intros callFn h.
  apply (encapsulate_is_guard_builder callFn 0%nat h demo_segments).
  - repeat constructor.
  - reflexivity.
Defined.

(** C2: for a value path [A.B[].C*], a repeated segment [B] and then the
    optional [C], the emitted block is the loop over [A.B] around the null
    guard on [A.B[i1].C] around the terminal call, in this order. *)
Theorem repeated_then_optional_nesting ref pkg (h : heap) A B C :
  plain_name A = true → plain_name B = true → plain_name C = true →
  h !! GoValueFieldPath ref = Some [A; "[]" +:+ B; "*" +:+ C] →
  let h' := <[GoValueFieldPath ref := [A; B +:+ "[i1]"; C]]> h in
  ∃ call,
    terminalCall ref pkg (GoValueFieldPath ref) h' = Returned call
    ∧ encapsulate 0 (terminalCall ref pkg) (GoValueFieldPath ref) h
      = Returned (bounded_loop "i1" [A; B] (null_guard [A; B +:+ "[i1]"; C] call), h').
Proof.
  intros HA HB HC Hl h'.
  destruct (terminalCall_returns ref pkg (GoValueFieldPath ref) h') as [call Hcall].
  { unfold h', heap_read. rewrite list_lookup_insert_eq; [done|].
    by apply lookup_lt_Some in Hl. }
  exists call. split; [done|].
  pose (segs := [ {| seg_shape := plain; seg_name := A |};
                  {| seg_shape := repeated; seg_name := B |};
                  {| seg_shape := optional; seg_name := C |} ]).
  rewrite (encapsulate_guard_builder _ _ h [] segs); [| |done|done].
  - unfold segs. cbn [guard_builder seg_shape seg_name length app qualified_path].
    change (itoa 1) with "1".
    change (B +:+ "[" +:+ ("i" +:+ "1") +:+ "]") with (B +:+ "[i1]").
    change (B +:+ "[i" +:+ "1" +:+ "]") with (B +:+ "[i1]").
    change ("i" +:+ "1") with "i1". fold h'. rewrite Hcall.
    reflexivity.
  - by repeat constructor.
Qed.

Lemma repeated_then_optional_nesting_witness :
  let ref := demo_ref 0 false false in
  let h : heap := [["mg"; "[]Subnets"; "*SubnetID"]] in
  let h' : heap := [["mg"; "Subnets[i1]"; "SubnetID"]] in
  ∃ call,
    terminalCall ref "reference" 0%nat h' = Returned call
    ∧ encapsulate 0 (terminalCall ref "reference") 0%nat h
      = Returned (bounded_loop "i1" ["mg"; "Subnets"]
                    (null_guard ["mg"; "Subnets[i1]"; "SubnetID"] call), h').
Proof.
  exact (repeated_then_optional_nesting (demo_ref 0 false false) "reference"
           [["mg"; "[]Subnets"; "*SubnetID"]] "mg" "Subnets" "SubnetID"
           eq_refl eq_refl eq_refl eq_refl).
Defined.

(** ** The loop over the references *)

Lemma narrowed_read_same (h : heap) (l : loc) :
  heap_read (narrowed h l) l = narrow_from 0 (heap_read h l).
Proof.
  unfold narrowed, heap_read.
  destruct (h !! l) as [fs|] eqn:Hl; simpl.
  - rewrite list_lookup_insert_eq; [done|]. by apply lookup_lt_Some in Hl.
  - rewrite list_insert_ge by (by apply lookup_ge_None). by rewrite Hl.
Qed.

Lemma narrowed_read_other (h : heap) (l l' : loc) :
  l ≠ l' → heap_read (narrowed h l) l' = heap_read h l'.
Proof.
  intros Hne. unfold narrowed, heap_read. by rewrite list_lookup_insert_ne.
Qed.

Lemma narrowed_length (h : heap) (l l' : loc) :
  length (heap_read (narrowed h l) l') = length (heap_read h l').
Proof.
  destruct (decide (l = l')) as [<- | Hne].
  - by rewrite narrowed_read_same, narrow_from_length.
  - by rewrite narrowed_read_other.
Qed.

Lemma narrowed_nonempty (h : heap) (l l' : loc) :
  heap_read h l' ≠ [] → heap_read (narrowed h l) l' ≠ [].
Proof.
  intros Hne Hnil. apply Hne. apply length_zero_iff_nil.
  by rewrite <- (narrowed_length h l l'), Hnil.
Qed.

Lemma encapsulate_terminalCall ref pkg (h : heap) :
  heap_read h (GoValueFieldPath ref) ≠ [] →
  encapsulate 0 (terminalCall ref pkg) (GoValueFieldPath ref) h
  = Returned (guards_from (length (heap_read h (GoValueFieldPath ref))) 0
                (heap_read h (GoValueFieldPath ref))
                (terminal_stmt ref pkg (narrowed h (GoValueFieldPath ref))),
              narrowed h (GoValueFieldPath ref)).
Proof.
  intros Hne.
  rewrite (encapsulate_factor _ _ (length (heap_read h (GoValueFieldPath ref))))
    by lia.
  cbn zeta. fold (narrowed h (GoValueFieldPath ref)). unfold terminal_stmt.
  destruct (terminalCall_returns ref pkg (GoValueFieldPath ref)
              (narrowed h (GoValueFieldPath ref))) as [s ->]; [|done].
  by apply narrowed_nonempty.
Qed.

Lemma resolverLoop_returns pkg refs :
  ∀ hasMulti hasSingle calls (h : heap),
    Forall (λ ref, heap_read h (GoValueFieldPath ref) ≠ []) refs →
    resolverLoop pkg refs hasMulti hasSingle calls h
    = Returned (hasMulti || existsb IsSlice refs,
                hasSingle || existsb (λ ref, negb (IsSlice ref)) refs,
                calls ++ blocks_of pkg refs h,
                store_after refs h).
Proof.
  induction refs as [|ref refs IH]; intros hasMulti hasSingle calls h Hpaths.
  - cbn. by rewrite !orb_false_r, app_nil_r.
  - inversion Hpaths as [|? ? Href Hrefs]; subst.
    assert (Forall (λ r, heap_read (narrowed h (GoValueFieldPath ref))
                           (GoValueFieldPath r) ≠ []) refs) as Hrefs'.
    { eapply Forall_impl; [exact Hrefs|]. intros r Hr. by apply narrowed_nonempty. }
    pose proof (encapsulate_terminalCall ref pkg h Href) as Henc.
    unfold terminalCall in Henc. cbn [resolverLoop blocks_of store_after existsb].
    destruct (IsSlice ref) eqn:Hslice; rewrite Henc; cbn [mbind result_bind];
      rewrite IH by done; unfold block_of, terminal_stmt, terminalCall, Line;
      rewrite Hslice; cbn [negb orb]; rewrite <- app_assoc; cbn [app].
    + by rewrite orb_true_r.
    + by rewrite orb_true_r.
Qed.

Lemma writeResolveReferences_store receiver clientPath pkg (f : File) oName refs (h : heap) :
  Forall (λ ref, heap_read h (GoValueFieldPath ref) ≠ []) refs →
  ∃ f', writeResolveReferences receiver clientPath pkg f oName refs h
        = Returned (f', store_after refs h).
Proof.
  intros Hpaths. unfold writeResolveReferences.
  destruct refs as [|ref refs]; [by eexists|].
  cbn [length Nat.eqb]. rewrite resolverLoop_returns by done.
  cbn [mbind result_bind]. by eexists.
Qed.

Lemma store_after_read refs :
  ∀ (h : heap) (l : loc),
    NoDup (GoValueFieldPath <$> refs) →
    heap_read (store_after refs h) l
    = if decide (l ∈ GoValueFieldPath <$> refs)
      then narrow_from 0 (heap_read h l) else heap_read h l.
Proof.
  induction refs as [|ref refs IH]; intros h l Hdup.
  - cbn. by rewrite decide_False by apply not_elem_of_nil.
  - rewrite fmap_cons in Hdup. apply NoDup_cons in Hdup as [Hnotin Hdup].
    cbn [store_after]. rewrite IH by done. rewrite fmap_cons.
    destruct (decide (l = GoValueFieldPath ref)) as [-> | Hne].
    + rewrite decide_False by done.
      rewrite decide_True by (apply elem_of_cons; by left).
      apply narrowed_read_same.
    + rewrite narrowed_read_other by done.
      destruct (decide (l ∈ GoValueFieldPath <$> refs)) as [Hin | Hout].
      * by rewrite decide_True by (apply elem_of_cons; by right).
      * by rewrite decide_False by (apply not_elem_of_cons; by split).
Qed.

Lemma narrow_from_0 (fields : list string) :
  narrow_from 0 fields = imap narrow fields.
Proof. done. Qed.

Lemma imap_narrow_unmarked (fields : list string) :
  Forall unmarked fields → imap narrow fields = fields.
Proof.
  intros Hall. apply list_eq. intros i. rewrite list_lookup_imap.
  destruct (fields !! i) as [field|] eqn:Hi; [|done]. cbn.
  rewrite Forall_forall in Hall.
  destruct (Hall field) as [Hstar Hrep]; [by eapply list_elem_of_lookup_2|].
  unfold narrow. by rewrite Hstar, Hrep.
Qed.

(** ** Claims about the store of the references *)

(** C6, as stated, fails: the guard builder writes the narrowed segments
    into the slice it is given, which is the reference's own value path. *)
Lemma value_paths_read_only_fails : ¬ value_paths_read_only.
Proof.
  intros Hro.
  pose (h := [["mg"; "*Spec"; "[]Subnets"; "SubnetID"]] : heap).
  pose (ref := demo_ref 0 false true).
  destruct (writeResolveReferences_store "mg" "client" "reference" [] "Demo" [ref] h)
    as [f' Hf'].
  { repeat constructor. done. }
  specialize (Hro _ _ _ _ _ _ _ _ _ Hf').
  apply Forall_cons in Hro as [Hro _].
  vm_compute in Hro. discriminate Hro.
Qed.

(** C6, amended: synthesis rewrites the value path of each reference in
    place and touches nothing else in the store.  No array changes its
    length; segment [i] of a reference's path becomes [narrow i] of it,
    its markers stripped and, for a repeated segment, its index appended;
    the arrays of no reference stay as they are. *)
Theorem value_paths_narrowed_in_place receiver clientPath pkg (f : File) oName
    refs (h : heap) :
  Forall (λ ref, heap_read h (GoValueFieldPath ref) ≠ []) refs →
  NoDup (GoValueFieldPath <$> refs) →
  ∃ f' h',
    writeResolveReferences receiver clientPath pkg f oName refs h = Returned (f', h')
    ∧ length h' = length h
    ∧ (∀ l, length (heap_read h' l) = length (heap_read h l))
    ∧ (∀ ref, ref ∈ refs →
         heap_read h' (GoValueFieldPath ref)
         = imap narrow (heap_read h (GoValueFieldPath ref)))
    ∧ (∀ ref, ref ∈ refs →
         Forall unmarked (heap_read h (GoValueFieldPath ref)) →
         heap_read h' (GoValueFieldPath ref) = heap_read h (GoValueFieldPath ref))
    ∧ (∀ l, l ∉ GoValueFieldPath <$> refs → heap_read h' l = heap_read h l).
Proof.
  intros Hpaths Hdup.
  destruct (writeResolveReferences_store receiver clientPath pkg f oName refs h Hpaths)
    as [f' Hf'].
  exists f', (store_after refs h). split; [done|].
  assert (∀ ref, ref ∈ refs →
            heap_read (store_after refs h) (GoValueFieldPath ref)
            = imap narrow (heap_read h (GoValueFieldPath ref))) as Hnarrow.
  { intros ref Hin. rewrite store_after_read by done.
    rewrite decide_True; [done|]. by apply list_elem_of_fmap_2. }
  split; [|split; [|split; [|split]]].
  - clear. revert h. induction refs as [|ref refs IH]; intros h; [done|].
    cbn [store_after]. rewrite IH. unfold narrowed. by rewrite length_insert.
  - intros l. rewrite store_after_read by done.
    destruct (decide _); [|done]. by rewrite narrow_from_length.
  - exact Hnarrow.
  - intros ref Hin Hplain. rewrite Hnarrow by done.
    by apply imap_narrow_unmarked.
  - intros l Hnotin. rewrite store_after_read by done.
    by rewrite decide_False.
Qed.

Lemma value_paths_narrowed_in_place_witness :
  let refs := [demo_ref 0 false true] in
  let h : heap := [["mg"; "*Spec"; "[]Subnets"; "SubnetID"]] in
  ∃ f' h',
    writeResolveReferences "mg" "client" "reference" [] "Demo" refs h = Returned (f', h')
    ∧ length h' = length h
    ∧ (∀ l, length (heap_read h' l) = length (heap_read h l))
    ∧ (∀ ref, ref ∈ refs →
         heap_read h' (GoValueFieldPath ref)
         = imap narrow (heap_read h (GoValueFieldPath ref)))
    ∧ (∀ ref, ref ∈ refs →
         Forall unmarked (heap_read h (GoValueFieldPath ref)) →
         heap_read h' (GoValueFieldPath ref) = heap_read h (GoValueFieldPath ref))
    ∧ (∀ l, l ∉ GoValueFieldPath <$> refs → heap_read h' l = heap_read h l).
Proof.
  intros refs h.
  apply (value_paths_narrowed_in_place "mg" "client" "reference" [] "Demo" refs h).
  - repeat constructor. done.
  - repeat constructor. apply not_elem_of_nil.
Defined.

(** ** The extractor on a marked field *)

Section Extractor_facts.

Variable ParseMarkers : string -> gmap string (list string).

Lemma Process_marked rp n f tag comment parentFields (h : heap) refType more :
  values_present (ParseMarkers comment) →
  ParseMarkers comment !! ReferenceTypeMarker = Some (refType :: more) →
  Process ParseMarkers rp n f tag comment parentFields h
  = Returned (None,
              {| DefaultExtractor := DefaultExtractor rp;
                 Receiver := Receiver rp;
                 refs := refs rp ++
                   [reference_of rp f (ParseMarkers comment) refType (length h)] |},
              h ++ [Receiver rp :: parentFields ++ [types.Name f]]).
Proof.
  intros Hwf Htype. unfold Process, reference_of, first_value.
  rewrite Htype. cbn [default length Nat.eqb index lookup list_lookup].
  cbn [mbind result_bind].
  destruct (fieldShape (types.Type' f)) as [[isPointer isList] sourceType].
  pose proof (Hwf ReferenceExtractorMarker) as H1.
  pose proof (Hwf ReferenceReferenceFieldNameMarker) as H2.
  pose proof (Hwf ReferenceSelectorFieldNameMarker) as H3.
  destruct (ParseMarkers comment !! ReferenceExtractorMarker) as [[|v1 ?]|];
    [done| |];
    destruct (ParseMarkers comment !! ReferenceReferenceFieldNameMarker) as [[|v2 ?]|];
    try done;
    destruct (ParseMarkers comment !! ReferenceSelectorFieldNameMarker) as [[|v3 ?]|];
    try done.
Qed.

Lemma Process_unmarked rp n f tag comment parentFields (h : heap) :
  default [] (ParseMarkers comment !! ReferenceTypeMarker) = [] →
  Process ParseMarkers rp n f tag comment parentFields h = Returned (None, rp, h).
Proof. intros Hnone. unfold Process. by rewrite Hnone. Qed.

End Extractor_facts.

(** ** Claims about the extractor *)

(** C9: on a field whose comment has no reference-type marker [Process]
    returns a nil error and leaves the processor, and so its list of
    references, and the store as they were. *)
Theorem Process_without_marker_is_noop ParseMarkers rp n f tag comment
    parentFields (h : heap) :
  default [] (ParseMarkers comment !! ReferenceTypeMarker) = [] →
  Process ParseMarkers rp n f tag comment parentFields h = Returned (None, rp, h).
Proof.
  intros Hnone. unfold Process. cbv zeta.
  rewrite Hnone. cbn [length Nat.eqb].
  reflexivity.
Qed.

Lemma Process_without_marker_is_noop_witness :
  Process Example_markers.parse demo_processor {| types.ObjName := "Demo" |}
    (demo_field "Region" (types.Basic "string")) EmptyString
    "Region is the region you'd like your resource to be created in."
    ["Spec"; "ForProvider"] []
  = Returned (None, demo_processor, []).
Proof.
  apply (Process_without_marker_is_noop Example_markers.parse).
  vm_compute. reflexivity.
Defined.

Lemma example_parse_values_present comment :
  values_present (Example_markers.parse comment).
Proof.
  unfold Example_markers.parse.
  assert (∀ lines m, values_present m →
            values_present (foldl Example_markers.parseLine m lines)) as Hfold.
  { induction lines as [|line lines IH]; intros m Hm; [done|].
    cbn [foldl]. apply IH. unfold Example_markers.parseLine.
    destruct line as [|c r]; [done|].
    destruct (Ascii.eqb c "+"); [|done].
    destruct (Example_markers.cut r) as [k v].
    intros key. destruct (decide (k = key)) as [<- | Hne].
    - rewrite lookup_insert_eq. intros [= Hnil].
      by apply app_eq_nil in Hnil as [_ ?].
    - rewrite lookup_insert_ne by done. apply Hm. }
  apply Hfold. intros key. by rewrite lookup_empty.
Qed.

(** C10: [Process] returns, and the error it returns is nil, whatever the
    named type, the field, the tag, the comment and the ancestors are: it
    never makes the traversal stop. *)
Theorem Process_returns_nil_error ParseMarkers rp n f tag comment parentFields
    (h : heap) :
  values_present (ParseMarkers comment) →
  ∃ rp' h', Process ParseMarkers rp n f tag comment parentFields h
            = Returned (None, rp', h').
Proof.
  intros Hwf.
  destruct (ParseMarkers comment !! ReferenceTypeMarker) as [[|refType more]|] eqn:Htype.
  - by destruct (Hwf ReferenceTypeMarker).
  - rewrite (Process_marked ParseMarkers rp n f tag comment parentFields h refType more)
      by done.
    by do 2 eexists.
  - exists rp, h. apply Process_unmarked. by rewrite Htype.
Qed.

Lemma Process_returns_nil_error_witness :
  ∃ rp' h',
    Process Example_markers.parse demo_processor {| types.ObjName := "Demo" |}
      (demo_field "SubnetID" (types.Pointer (types.Basic "string"))) EmptyString
      demo_comment ["Spec"; "ForProvider"] []
    = Returned (None, rp', h').
Proof.
  apply (Process_returns_nil_error Example_markers.parse).
  apply example_parse_values_present.
Defined.

(** C5: the shape of a processed reference field comes from its declared
    type alone.  A pointer sets [IsPointer], with the pointee as source
    type; a slice sets [IsSlice]; a slice of pointers sets both, with the
    pointee of the element as source type; a pointer to a slice is taken
    as any pointer and is not given the plural treatment. *)
Theorem shape_flags_from_declared_type ParseMarkers rp n f tag comment
    parentFields (h : heap) refType more :
  values_present (ParseMarkers comment) →
  ParseMarkers comment !! ReferenceTypeMarker = Some (refType :: more) →
  ∃ rp' h' ref,
    Process ParseMarkers rp n f tag comment parentFields h = Returned (None, rp', h')
    ∧ GetReferences rp' = GetReferences rp ++ [ref]
    ∧ match types.Type' f with
      | types.Pointer elem =>
          IsPointer ref = true ∧ IsSlice ref = false
          ∧ SourceType ref = types.String_ elem
      | types.Slice (types.Pointer pointee) =>
          IsPointer ref = true ∧ IsSlice ref = true
          ∧ SourceType ref = types.String_ pointee
      | types.Slice _ => IsPointer ref = false ∧ IsSlice ref = true
      | _ => IsPointer ref = false ∧ IsSlice ref = false
      end.
Proof.
  intros Hwf Htype.
  rewrite (Process_marked ParseMarkers rp n f tag comment parentFields h refType more)
    by done.
  do 3 eexists. split; [done|]. split; [done|].
  unfold reference_of.
  destruct (types.Type' f) as [| |elem|[| |pointee| |]|]; cbn; done.
Qed.

Lemma shape_flags_from_declared_type_witness :
  ∃ rp' h' ref,
    Process Example_markers.parse demo_processor {| types.ObjName := "Demo" |}
      (demo_field "SubnetIDs" (types.Slice (types.Pointer (types.Basic "string"))))
      EmptyString demo_comment ["Spec"; "ForProvider"] []
    = Returned (None, rp', h')
    ∧ GetReferences rp' = GetReferences demo_processor ++ [ref]
    ∧ IsPointer ref = true ∧ IsSlice ref = true ∧ SourceType ref = "string".
Proof.
  apply (shape_flags_from_declared_type Example_markers.parse demo_processor
           {| types.ObjName := "Demo" |}
           (demo_field "SubnetIDs" (types.Slice (types.Pointer (types.Basic "string"))))
           EmptyString demo_comment ["Spec"; "ForProvider"] []
           "github.com/acme/ec2.Subnet" []).
  - apply example_parse_values_present.
  - vm_compute. reflexivity.
Defined.

(** C7: the reference field of a processed field is named after it with
    [Ref], or [Refs] for a list, and the selector field with [Selector],
    unless the marker that names the field is present, whose value is
    then taken as it is. *)
Theorem sibling_field_names ParseMarkers rp n f tag comment parentFields
    (h : heap) refType more :
  values_present (ParseMarkers comment) →
  ParseMarkers comment !! ReferenceTypeMarker = Some (refType :: more) →
  ∃ rp' h' ref,
    Process ParseMarkers rp n f tag comment parentFields h = Returned (None, rp', h')
    ∧ GetReferences rp' = GetReferences rp ++ [ref]
    ∧ (ParseMarkers comment !! ReferenceReferenceFieldNameMarker = None →
       GoRefFieldName ref
       = types.Name f +:+ (if IsSlice ref then "Refs" else "Ref"))
    ∧ (∀ v vs, ParseMarkers comment !! ReferenceReferenceFieldNameMarker = Some (v :: vs) →
       GoRefFieldName ref = v)
    ∧ (ParseMarkers comment !! ReferenceSelectorFieldNameMarker = None →
       GoSelectorFieldName ref = types.Name f +:+ "Selector")
    ∧ (∀ v vs, ParseMarkers comment !! ReferenceSelectorFieldNameMarker = Some (v :: vs) →
       GoSelectorFieldName ref = v).
Proof.
  intros Hwf Htype.
  rewrite (Process_marked ParseMarkers rp n f tag comment parentFields h refType more)
    by done.
  do 3 eexists. split; [done|]. split; [done|].
  unfold reference_of, first_value.
  destruct (fieldShape (types.Type' f)) as [[isPointer isList] sourceType].
  cbn [GoRefFieldName GoSelectorFieldName IsSlice].
  repeat split.
  - intros ->. by destruct isList.
  - by intros v vs ->.
  - by intros ->.
  - by intros v vs ->.
Qed.

Lemma sibling_field_names_witness :
  ∃ rp' h' ref,
    Process Example_markers.parse demo_processor {| types.ObjName := "Demo" |}
      (demo_field "SubnetID" (types.Pointer (types.Basic "string"))) EmptyString
      demo_comment ["Spec"; "ForProvider"] []
    = Returned (None, rp', h')
    ∧ GetReferences rp' = GetReferences demo_processor ++ [ref]
    ∧ GoRefFieldName ref = "FooRef"
    ∧ GoSelectorFieldName ref = "SubnetIDSelector".
Proof.
  destruct (sibling_field_names Example_markers.parse demo_processor
              {| types.ObjName := "Demo" |}
              (demo_field "SubnetID" (types.Pointer (types.Basic "string")))
              EmptyString demo_comment ["Spec"; "ForProvider"] []
              "github.com/acme/ec2.Subnet" [])
    as (rp' & h' & ref & Hp & Hrefs & _ & Hover & Hsel & _).
  - apply example_parse_values_present.
  - vm_compute. reflexivity.
  - exists rp', h', ref. split; [exact Hp|]. split; [exact Hrefs|]. split.
    + apply (Hover "FooRef" []). vm_compute. reflexivity.
    + apply Hsel. vm_compute. reflexivity.
Defined.

(** ** Claims about the synthesizer *)

(** A walk over fields none of which is marked collects no reference. *)
Lemma visitFields_unmarked ParseMarkers rp vs (h : heap) :
  Forall (λ v, default [] (ParseMarkers (vComment v) !! ReferenceTypeMarker) = []) vs →
  visitFields ParseMarkers rp vs h = Returned (None, rp, h).
Proof.
  induction 1 as [|v vs Hv _ IH]; [done|].
  cbn [visitFields]. rewrite Process_unmarked by done. exact IH.
Qed.

(** C8: when the walk of an object has gathered no reference, nothing is
    added to the file, and the call returns as any other. *)
Theorem no_reference_no_method ParseMarkers traverser receiver clientPath pkg
    (f : File) o (h : heap) namedType rp' h' :
  types.AsNamed o = Some namedType →
  Traverse ParseMarkers traverser namedType
    (NewReferenceProcessor receiver
       [WithDefaultExtractor (jen |> Qual pkg "ExternalName" |> Call [])]) h
  = Returned (None, rp', h') →
  GetReferences rp' = [] →
  NewResolveReferences ParseMarkers traverser receiver clientPath pkg f o h
  = Returned (f, h').
Proof.
  intros Hnamed Hwalk Hrefs. unfold NewResolveReferences.
  rewrite Hnamed, Hwalk. cbn [mbind result_bind].
  unfold writeResolveReferences. by rewrite Hrefs.
Qed.

Lemma no_reference_no_method_witness :
  NewResolveReferences Example_markers.parse demo_plain_walk "mg" "client"
    "reference" [] demo_object []
  = Returned ([], []).
Proof.
  apply (no_reference_no_method Example_markers.parse demo_plain_walk "mg"
           "client" "reference" [] demo_object [] {| types.ObjName := "Demo" |}
           demo_processor []).
  - reflexivity.
  - unfold Traverse. rewrite visitFields_unmarked; [reflexivity|].
    repeat constructor.
  - reflexivity.
Defined.

(** ** Declarations in the emitted method *)

Lemma foldl_Dot (g : nat → string) (l : list nat) :
  ∀ p : Statement,
    foldl (λ path i, path |> Dot (g i)) p l = p ++ ((λ i, TDot (g i)) <$> l).
Proof.
  induction l as [|i l IH]; intros p; cbn [foldl fmap list_fmap].
  - by rewrite app_nil_r.
  - rewrite IH. unfold Dot. by rewrite <- app_assoc.
Qed.

Lemma prefixPathOf_selector (fields : list string) :
  Forall (λ c, is_selector c = true) (prefixPathOf fields).
Proof.
  unfold prefixPathOf. rewrite foldl_Dot. apply Forall_app. split.
  - by repeat constructor.
  - apply Forall_fmap. by apply Forall_true.
Qed.

Lemma fieldPathOf_head (fields : list string) index :
  ∃ rest, fieldPathOf fields index = TId (cleaner_Replace (at_ fields 0)) :: rest.
Proof. unfold fieldPathOf. rewrite foldl_Dot. by eexists. Qed.

Lemma var_ids_selector name sel rest :
  Forall (λ c, is_selector c = true) sel →
  var_ids name (sel ++ rest) = var_ids name rest.
Proof.
  induction 1 as [|c sel Hc _ IH]; [done|].
  destruct c; try done; exact IH.
Qed.

Lemma declarations_selector name sel rest :
  Forall (λ c, is_selector c = true) sel →
  declarations name (sel ++ rest) = declarations name rest.
Proof.
  intros Hsel. unfold declarations. rewrite var_ids_selector by done.
  f_equal. induction Hsel as [|c sel Hc _ IH]; [done|].
  cbn [app fold_right]. rewrite IH. by destruct c.
Qed.

Lemma declarations_in_TBlock name statements :
  declarations_in name (TBlock statements)
  = sum_list (declarations name <$> statements).
Proof.
  cbn [declarations_in]. induction statements as [|s ss IH]; [done|].
  cbn [fold_right fmap list_fmap sum_list sum_list_with]. rewrite IH.
  unfold declarations, id. done.
Qed.

Lemma declarations_Stmts name items :
  declarations name (Stmts items) = sum_list (declarations name <$> items).
Proof.
  unfold Stmts. induction items as [|s ss IH]; [done|].
  cbn [fmap list_fmap sum_list sum_list_with]. rewrite <- IH.
  unfold declarations, id. cbn [var_ids fold_right declarations_in]. lia.
Qed.

Lemma var_ids_snoc_Line name s :
  var_ids name (s ++ [TLine]) = var_ids name s.
Proof.
  induction s as [|c s IH]; [done|].
  destruct c; cbn [app var_ids]; try exact IH.
  destruct s as [|c' s']; [done|].
  cbn [app] in *. destruct c'; by rewrite IH.
Qed.

Lemma declarations_snoc_Line name s :
  declarations name (s ++ [TLine]) = declarations name s.
Proof.
  unfold declarations. rewrite var_ids_snoc_Line. f_equal.
  rewrite fold_right_app. done.
Qed.

Lemma declarations_guards name inner remaining :
  ∀ index fields,
    declarations name (guards_from remaining index fields inner)
    = declarations name inner.
Proof.
  induction remaining as [|k IH]; intros index fields; [done|].
  cbn [guards_from].
  destruct (strings.HasPrefix (at_ fields index) "*");
    [|destruct (strings.HasPrefix (at_ fields index) "[]")].
  - unfold declarations at 1. cbn [var_ids fold_right].
    rewrite declarations_in_TBlock. cbn. rewrite IH. lia.
  - unfold declarations at 1. cbn [var_ids fold_right].
    rewrite declarations_in_TBlock. cbn. rewrite IH. lia.
  - apply IH.
Qed.

Lemma declarations_terminal name ref pkg (h : heap) :
  name = "rsp" ∨ name = "mrsp" →
  declarations name (terminal_stmt ref pkg h) = 0%nat.
Proof.
  intros Hname. unfold terminal_stmt, terminalCall.
  unfold multiResolutionCall, singleResolutionCall, wrapReturn.
  pose proof (prefixPathOf_selector (heap_read h (GoValueFieldPath ref))) as Hp.
  destruct (IsSlice ref); cbv beta;
    set (p := prefixPathOf (heap_read h (GoValueFieldPath ref))) in *;
    (destruct (length (heap_read h (GoValueFieldPath ref)) =? 0)%nat;
     [reflexivity|]);
    destruct (IsPointer ref); cbn [mret result_ret];
    rewrite declarations_Stmts; unfold_jen;
    cbn [fmap list_fmap sum_list sum_list_with];
    rewrite ?declarations_Stmts;
    cbn [fmap list_fmap sum_list sum_list_with];
    rewrite ?declarations_selector by exact Hp;
    destruct Hname as [-> | ->]; reflexivity.
Qed.

(** C3: in the emitted method the response variable of the singular
    resolution is declared once when some reference is not a slice and
    never otherwise, and the one of the plural resolution once when some
    reference is a slice and never otherwise, however many references
    there are. *)
Theorem response_variables_declared_once receiver clientPath pkg (f : File)
    oName refs (h : heap) :
  refs ≠ [] →
  Forall (λ ref, heap_read h (GoValueFieldPath ref) ≠ []) refs →
  ∃ comment method h',
    writeResolveReferences receiver clientPath pkg f oName refs h
    = Returned (f ++ [comment; method], h')
    ∧ declarations "rsp" method
      = (if existsb (λ ref, negb (IsSlice ref)) refs then 1 else 0)%nat
    ∧ declarations "mrsp" method
      = (if existsb IsSlice refs then 1 else 0)%nat.
Proof.
  intros Hne Hpaths. unfold writeResolveReferences.
  destruct refs as [|ref refs]; [done|]. cbn [length Nat.eqb].
  rewrite resolverLoop_returns by done. cbn [mbind result_bind orb app].
  do 3 eexists. split; [by rewrite <- app_assoc|].
  assert (∀ name, name = "rsp" ∨ name = "mrsp" →
            sum_list (declarations name <$> blocks_of pkg (ref :: refs) h) = 0%nat)
    as Hblocks.
  { intros name Hname. generalize (ref :: refs). clear -Hname.
    intros rs. revert h. induction rs as [|r rs IH]; intros h; [done|].
    cbn [blocks_of fmap list_fmap sum_list sum_list_with]. rewrite IH.
    unfold block_of, id.
    by rewrite declarations_snoc_Line, declarations_guards, declarations_terminal. }
  unfold initStatementsOf.
  split.
  - unfold_jen. unfold declarations. cbn [var_ids fold_right].
    rewrite declarations_in_TBlock.
    cbn [declarations_in Nat.add fmap list_fmap sum_list sum_list_with].
    rewrite !declarations_Stmts, Hblocks by (by left).
    destruct (existsb (λ r, negb (IsSlice r)) (ref :: refs)),
             (existsb IsSlice (ref :: refs)); reflexivity.
  - unfold_jen. unfold declarations. cbn [var_ids fold_right].
    rewrite declarations_in_TBlock.
    cbn [declarations_in Nat.add fmap list_fmap sum_list sum_list_with].
    rewrite !declarations_Stmts, Hblocks by (by right).
    destruct (existsb (λ r, negb (IsSlice r)) (ref :: refs)),
             (existsb IsSlice (ref :: refs)); reflexivity.
Qed.

Lemma response_variables_declared_once_witness :
  let refs := [demo_ref 0 false true; demo_ref 1 false false; demo_ref 2 false true] in
  let h : heap := [["mg"; "*Spec"; "SubnetID"]; ["mg"; "VpcID"];
                   ["mg"; "[]Zones"; "ZoneID"]] in
  ∃ comment method h',
    writeResolveReferences "mg" "client" "reference" [] "Demo" refs h
    = Returned ([] ++ [comment; method], h')
    ∧ declarations "rsp" method = 1%nat
    ∧ declarations "mrsp" method = 0%nat.
Proof.
  intros refs h.
  apply (response_variables_declared_once "mg" "client" "reference" [] "Demo" refs h).
  - discriminate.
  - repeat constructor; discriminate.
Defined.

(** ** The control flow of the emitted method *)

Lemma all_ok_removelast t : all_ok t → all_ok (removelast t).
Proof.
  induction 1 as [|e t He Ht IH]; [constructor|].
  destruct t; [constructor|]. by constructor.
Qed.

Lemma removelast_snoc (t : list event) e : removelast (t ++ [e]) = t.
Proof. by rewrite removelast_app, app_nil_r. Qed.

Lemma settled_failure_is_last m :
  settled m →
  failure_is_last (trace m)
  ∧ (Lookup true ∈ trace m → returned m = true).
Proof.
  intros [_ Hok]. split.
  - intros before after Ht. destruct (returned m).
    + destruct after as [|e after]; [done|]. exfalso.
      rewrite Ht in Hok.
      rewrite removelast_app in Hok by done.
      apply Forall_app in Hok as [_ Hok]. cbn [removelast] in Hok.
      by apply Forall_cons in Hok as [? _].
    + exfalso. rewrite Ht in Hok.
      apply Forall_app in Hok as [_ Hok]. by apply Forall_cons in Hok as [? _].
  - intros Hin. destruct (returned m); [done|]. exfalso.
    unfold all_ok in Hok. rewrite Forall_forall in Hok. by specialize (Hok _ Hin).
Qed.

Lemma run_seq_returned step s m :
  returned m = true → run_seq step s m = m.
Proof.
  intros Hret. unfold run_seq. induction s as [|c s IH]; [done|].
  cbn [foldl]. by rewrite Hret.
Qed.

Lemma run_seq_app step s1 s2 m :
  run_seq step (s1 ++ s2) m = run_seq step s2 (run_seq step s1 m).
Proof. unfold run_seq. by rewrite foldl_app. Qed.

Lemma run_seq_cons step c s m :
  run_seq step (c :: s) m = run_seq step s (if returned m then m else step c m).
Proof. done. Qed.

Lemma exec_selector sel rest m :
  Forall (λ c, is_selector c = true) sel →
  exec (sel ++ rest) m = exec rest m.
Proof.
  intros Hsel. unfold exec. rewrite run_seq_app. f_equal.
  induction Hsel as [|c sel Hc _ IH]; [done|].
  rewrite run_seq_cons.
  replace (if returned m then m else exec_code c m) with m; [done|].
  destruct (returned m); [done|]. by destruct c.
Qed.

Lemma exec_Stmts items m :
  exec (Stmts items) m = run_block exec_code items m.
Proof.
  unfold exec, Stmts. revert m. induction items as [|s items IH]; intros m; [done|].
  rewrite fmap_cons, run_seq_cons.
  change (run_block exec_code (s :: items) m)
    with (run_block exec_code items (run_seq exec_code s m)).
  rewrite <- IH. f_equal.
  destruct (returned m) eqn:Hret; [|done]. by rewrite run_seq_returned.
Qed.

Lemma run_block_settled items :
  Forall keeps_settled items →
  ∀ m, settled m → settled (run_block exec_code items m).
Proof.
  induction 1 as [|s items Hs _ IH]; intros m Hm; [done|].
  cbn [run_block foldl]. apply IH. by apply Hs.
Qed.

Lemma keeps_settled_Stmts items :
  Forall keeps_settled items → keeps_settled (Stmts items).
Proof. intros Hitems m Hm. rewrite exec_Stmts. by apply run_block_settled. Qed.

Lemma keeps_settled_snoc_Line s :
  keeps_settled s → keeps_settled (s ++ [TLine]).
Proof.
  intros Hs m Hm. unfold exec. rewrite run_seq_app. fold (exec s m).
  cbn. destruct (returned (exec s m)); by apply Hs.
Qed.

Lemma set_times_settled t m :
  settled m → settled (set_times None (set_times t m)).
Proof. by intros [_ Hok]. Qed.

Lemma iter_block_settled inner n m :
  keeps_settled inner → settled m →
  settled (Nat.iter n (run_block exec_code [inner]) m).
Proof.
  intros Hinner Hm. induction n as [|n IH]; [done|].
  cbn [Nat.iter nat_rect]. by apply Hinner.
Qed.

(** A guard and a loop keep what the block inside them keeps. *)
Lemma keeps_settled_guard x path inner :
  keeps_settled inner →
  keeps_settled [TIf [TId x :: path]; TBlock [inner]].
Proof.
  intros Hinner m Hm. unfold exec.
  rewrite !run_seq_cons. cbn [run_seq foldl].
  destruct (returned m) eqn:Hret; [by rewrite Hret|].
  cbn [exec_code eval_conds tests_err]. unfold guess.
  destruct (draw m) as [n m'] eqn:Hdraw.
  assert (settled m') as Hm'.
  { unfold draw in Hdraw. injection Hdraw as _ <-.
    destruct Hm as [Ht Hok]. split; [done|]. cbn. by rewrite Hret in Hok |- *. }
  assert (returned m' = false) as Hret'.
  { unfold draw in Hdraw. by injection Hdraw as _ <-. }
  cbn [set_times returned]. rewrite Hret'. cbn [exec_code times set_times default].
  apply iter_block_settled; [done|]. by apply (set_times_settled None).
Qed.

Lemma keeps_settled_loop clauses inner :
  keeps_settled inner →
  keeps_settled [TFor clauses; TBlock [inner]].
Proof.
  intros Hinner m Hm. unfold exec.
  rewrite !run_seq_cons. cbn [run_seq foldl].
  destruct (returned m) eqn:Hret; [by rewrite Hret|].
  cbn [exec_code].
  destruct (draw m) as [n m'] eqn:Hdraw.
  assert (settled m') as Hm'.
  { unfold draw in Hdraw. injection Hdraw as _ <-.
    destruct Hm as [Ht Hok]. split; [done|]. cbn. by rewrite Hret in Hok |- *. }
  assert (returned m' = false) as Hret'.
  { unfold draw in Hdraw. by injection Hdraw as _ <-. }
  cbn [set_times returned]. rewrite Hret'. cbn [exec_code times set_times default].
  apply iter_block_settled; [done|]. by apply (set_times_settled None).
Qed.

Lemma keeps_settled_guards inner remaining :
  keeps_settled inner →
  ∀ index fields, keeps_settled (guards_from remaining index fields inner).
Proof.
  intros Hinner. induction remaining as [|k IH]; intros index fields; [done|].
  cbn [guards_from].
  destruct (strings.HasPrefix (at_ fields index) "*");
    [|destruct (strings.HasPrefix (at_ fields index) "[]")].
  - destruct (fieldPathOf_head fields index) as [rest ->].
    apply keeps_settled_guard, IH.
  - apply keeps_settled_loop, IH.
  - apply IH.
Qed.

Lemma selector_simple s :
  Forall (λ c, is_selector c = true) s → Forall (λ c, is_simple c = true) s.
Proof. intros Hs. eapply Forall_impl; [exact Hs|]. by intros []. Qed.

Lemma exec_simple s m :
  Forall (λ c, is_simple c = true) s → exec s m = m.
Proof.
  unfold exec. induction 1 as [|c s Hc _ IH]; [done|].
  rewrite run_seq_cons.
  replace (if returned m then m else exec_code c m) with m; [done|].
  destruct (returned m); [done|]. by destruct c.
Qed.

Lemma keeps_settled_simple s :
  Forall (λ c, is_simple c = true) s → keeps_settled s.
Proof. intros Hs m Hm. by rewrite exec_simple. Qed.

Lemma checked_lookup_settled lookup context m :
  is_lookup lookup → settled m →
  settled (run_block exec_code [lookup; [TLine]; failure_check context] m).
Proof.
  intros (rsp & method & args & -> & _) [Ht Hok].
  destruct m as [e r t o tr]. cbn in Ht, Hok. subst t.
  destruct r; [done|].
  destruct o as [|[|n] o]; unfold settled; cbn; split; try done.
  - apply Forall_app. split; [done|]. by repeat constructor.
  - apply Forall_app. split; [done|]. by repeat constructor.
  - by rewrite removelast_snoc.
Qed.

Lemma checked_conversion_settled op conversion op' results :
  keeps_settled [TIf [TErr :: TOp op :: conversion; [TErr; TOp op'; TNil]];
                 TBlock [[TReturn results]]].
Proof.
  intros m [Ht Hok].
  destruct m as [e r t o tr]. cbn in Ht, Hok. subst t.
  destruct r; [done|].
  destruct o as [|[|n] o];
    unfold settled; cbn; split; try done; by apply all_ok_removelast.
Qed.

Lemma keeps_settled_return results : keeps_settled [TReturn results].
Proof.
  intros m [Ht Hok]. destruct m as [e r t o tr]. cbn in Ht, Hok. subst t.
  destruct r; [done|]. unfold settled. cbn. split; [done|].
  by apply all_ok_removelast.
Qed.

Lemma run_block_app step items1 items2 m :
  run_block step (items1 ++ items2) m
  = run_block step items2 (run_block step items1 m).
Proof. unfold run_block. by rewrite foldl_app. Qed.

Lemma terminal_shape ref pkg (h : heap) :
  heap_read h (GoValueFieldPath ref) ≠ [] →
  ∃ lookup rest,
    terminal_stmt ref pkg h
    = Stmts ([lookup; [TLine];
              failure_check (strings.Join (heap_read h (GoValueFieldPath ref)) ".")]
             ++ rest)
    ∧ is_lookup lookup
    ∧ Forall keeps_settled rest.
Proof.
  intros Hne. unfold terminal_stmt, terminalCall.
  unfold multiResolutionCall, singleResolutionCall, wrapReturn.
  pose proof (selector_simple _
    (prefixPathOf_selector (heap_read h (GoValueFieldPath ref)))) as Hp.
  destruct (IsSlice ref); cbv beta;
    set (p := prefixPathOf (heap_read h (GoValueFieldPath ref))) in *;
    (destruct (length (heap_read h (GoValueFieldPath ref)) =? 0)%nat eqn:Hlen;
     [apply Nat.eqb_eq, length_zero_iff_nil in Hlen; done|]);
    destruct (IsPointer ref); cbn [mret result_ret]; unfold_jen;
    do 2 eexists; (split; [reflexivity|]);
    (split; [do 3 eexists; split; [reflexivity|]; auto|]);
    repeat (apply Forall_cons; split);
    try apply Forall_nil;
    try (apply keeps_settled_simple; try apply Forall_app; repeat constructor; exact Hp).
  all: try done.
  all: apply keeps_settled_Stmts;
    repeat (apply Forall_cons; split); try apply Forall_nil;
    try (apply keeps_settled_simple; try apply Forall_app; repeat constructor; exact Hp).
  all: try done.
  all: apply checked_conversion_settled.
Qed.

Lemma keeps_settled_terminal ref pkg (h : heap) :
  heap_read h (GoValueFieldPath ref) ≠ [] →
  keeps_settled (terminal_stmt ref pkg h).
Proof.
  intros Hne m Hm.
  destruct (terminal_shape ref pkg h Hne) as (lookup & rest & -> & Hlookup & Hrest).
  rewrite exec_Stmts, run_block_app.
  apply run_block_settled; [done|]. by apply checked_lookup_settled.
Qed.

Lemma blocks_of_keep_settled pkg refs :
  ∀ h : heap,
    Forall (λ ref, heap_read h (GoValueFieldPath ref) ≠ []) refs →
    Forall keeps_settled (blocks_of pkg refs h).
Proof.
  induction refs as [|ref refs IH]; intros h Hpaths; [constructor|].
  inversion Hpaths as [|? ? Href Hrefs]; subst.
  cbn [blocks_of]. constructor.
  - unfold block_of. apply keeps_settled_snoc_Line, keeps_settled_guards.
    apply keeps_settled_terminal. by apply narrowed_nonempty.
  - apply IH. eapply Forall_impl; [exact Hrefs|].
    intros r Hr. by apply narrowed_nonempty.
Qed.

Lemma exec_simple_app pre rest m :
  Forall (λ c, is_simple c = true) pre → exec (pre ++ rest) m = exec rest m.
Proof.
  intros Hpre. unfold exec. rewrite run_seq_app. f_equal. by apply exec_simple.
Qed.

Lemma exec_body_settled pre body oracle :
  Forall (λ c, is_simple c = true) pre →
  Forall keeps_settled body →
  settled (exec (pre ++ [TBlock body]) (start oracle)).
Proof.
  intros Hpre Hbody. rewrite exec_simple_app by done.
  unfold exec. cbn. apply run_block_settled; [done|].
  split; [done|]. constructor.
Qed.

(** ** Claims about failure *)

(** C4: in the block of every reference the lookup call is followed at
    once by the check that returns the error wrapped with the dotted
    value field path, as the path stands when the call is emitted; and in
    no run of the emitted method is a lookup made after one that failed:
    the method has returned. *)
Theorem failed_lookup_returns_at_once receiver clientPath pkg (f : File) oName
    refs (h : heap) :
  refs ≠ [] →
  Forall (λ ref, heap_read h (GoValueFieldPath ref) ≠ []) refs →
  ∃ comment method h',
    writeResolveReferences receiver clientPath pkg f oName refs h
    = Returned (f ++ [comment; method], h')
    ∧ (∀ oracle,
         failure_is_last (trace (exec method (start oracle)))
         ∧ (Lookup true ∈ trace (exec method (start oracle)) →
            returned (exec method (start oracle)) = true))
    ∧ (∀ ref (h0 : heap),
         let fields := heap_read h0 (GoValueFieldPath ref) in
         fields ≠ [] →
         ∃ lookup rest,
           is_lookup lookup
           ∧ encapsulate 0 (terminalCall ref pkg) (GoValueFieldPath ref) h0
             = Returned
                 (guards_from (length fields) 0 fields
                    (Stmts ([lookup; [TLine];
                             failure_check (strings.Join (imap narrow fields) ".")]
                            ++ rest)),
                  narrowed h0 (GoValueFieldPath ref))).
Proof.
  intros Hne Hpaths. unfold writeResolveReferences.
  destruct refs as [|ref refs]; [done|]. cbn [length Nat.eqb].
  rewrite resolverLoop_returns by done. cbn [mbind result_bind orb app].
  do 3 eexists. split; [by rewrite <- app_assoc|]. split.
  - intros oracle. apply settled_failure_is_last.
    unfold_jen.
    match goal with
    | |- settled (exec (?a :: ?b :: ?c :: ?d :: ?e :: [TBlock ?body]) _) =>
        change (a :: b :: c :: d :: e :: [TBlock body])
          with ([a; b; c; d; e] ++ [TBlock body])
    end.
    apply exec_body_settled; [by repeat constructor|].
    repeat (apply Forall_cons; split); try (by constructor);
      try (apply keeps_settled_simple; by repeat constructor).
    + apply keeps_settled_Stmts. unfold initStatementsOf.
      destruct (existsb _ _), (existsb _ _); cbn [orb app];
        repeat (apply Forall_cons; split); try (by constructor);
        apply keeps_settled_simple; by repeat constructor.
    + apply keeps_settled_Stmts. by apply blocks_of_keep_settled.
    + apply keeps_settled_return.
  - intros r h0 Hfields.
    destruct (terminal_shape r pkg (narrowed h0 (GoValueFieldPath r)))
      as (lookup & rest & Hshape & Hlookup & _).
    { by apply narrowed_nonempty. }
    exists lookup, rest. split; [done|].
    rewrite encapsulate_terminalCall by done.
    rewrite Hshape, narrowed_read_same, narrow_from_0. done.
Qed.

Lemma failed_lookup_returns_at_once_witness :
  ∃ comment method h',
    writeResolveReferences "mg" "client" "reference" [] "Demo" demo_refs demo_heap
    = Returned ([] ++ [comment; method], h')
    ∧ (∀ oracle,
         failure_is_last (trace (exec method (start oracle)))
         ∧ (Lookup true ∈ trace (exec method (start oracle)) →
            returned (exec method (start oracle)) = true))
    ∧ (∀ ref (h0 : heap),
         let fields := heap_read h0 (GoValueFieldPath ref) in
         fields ≠ [] →
         ∃ lookup rest,
           is_lookup lookup
           ∧ encapsulate 0 (terminalCall ref "reference") (GoValueFieldPath ref) h0
             = Returned
                 (guards_from (length fields) 0 fields
                    (Stmts ([lookup; [TLine];
                             failure_check (strings.Join (imap narrow fields) ".")]
                            ++ rest)),
                  narrowed h0 (GoValueFieldPath ref))).
Proof.
  apply (failed_lookup_returns_at_once "mg" "client" "reference" [] "Demo"
           demo_refs demo_heap).
  - discriminate.
  - repeat constructor; discriminate.
Defined.

(** ** The paths the extractor builds

    Every reference the processor gathers owns an array of its own, which
    holds at least the receiver and the field: what the claims on the
    synthesizer ask of the references holds of every walk. *)

Lemma Process_inv ParseMarkers rp n f tag comment parentFields (h : heap) e rp' h' :
  Process ParseMarkers rp n f tag comment parentFields h = Returned (e, rp', h') →
  e = None
  ∧ ((rp' = rp ∧ h' = h)
     ∨ ∃ ref, GoValueFieldPath ref = length h
              ∧ refs rp' = refs rp ++ [ref]
              ∧ h' = h ++ [Receiver rp :: parentFields ++ [types.Name f]]).
Proof.
  unfold Process.
  destruct (default [] (ParseMarkers comment !! ReferenceTypeMarker)) as [|refType more].
  { cbn. intros [= <- <- <-]. split; [done|]. by left. }
  cbn [length Nat.eqb index lookup list_lookup mbind result_bind].
  destruct (fieldShape (types.Type' f)) as [[isPointer isList] sourceType].
  destruct (ParseMarkers comment !! ReferenceExtractorMarker) as [[|v1 ?]|];
    cbn [index lookup list_lookup mbind result_bind mret result_ret]; [done| |];
    (destruct (ParseMarkers comment !! ReferenceReferenceFieldNameMarker) as [[|v2 ?]|];
     cbn [index lookup list_lookup mbind result_bind mret result_ret]; [done| |]);
    (destruct (ParseMarkers comment !! ReferenceSelectorFieldNameMarker) as [[|v3 ?]|];
     cbn [index lookup list_lookup mbind result_bind mret result_ret]; [done| |]);
    intros [= <- <- <-]; (split; [done|]); right;
    eexists; (split; [|split; reflexivity]); reflexivity.
Qed.

Lemma heap_read_app_l (h : heap) (l : loc) elems :
  (l < length h)%nat → heap_read (h ++ [elems]) l = heap_read h l.
Proof. intros Hl. unfold heap_read. by rewrite lookup_app_l. Qed.

Lemma heap_read_app_new (h : heap) elems :
  heap_read (h ++ [elems]) (length h) = elems.
Proof. unfold heap_read. by rewrite list_lookup_middle. Qed.

Lemma Process_paths_ok ParseMarkers rp n f tag comment parentFields (h : heap) e rp' h' :
  Process ParseMarkers rp n f tag comment parentFields h = Returned (e, rp', h') →
  paths_ok (refs rp) h → paths_ok (refs rp') h'.
Proof.
  intros [_ [[-> ->] | (ref & Hpath & -> & ->)]]%Process_inv [Hdup Hall]; [done|].
  split.
  - rewrite fmap_app. apply NoDup_app. split; [done|]. split.
    + intros l Hl [->|Hin]%elem_of_cons; [|by apply not_elem_of_nil in Hin].
      apply list_elem_of_fmap in Hl as (r & Hr & Hin).
      rewrite Forall_forall in Hall. destruct (Hall r Hin) as [Hlt _]. lia.
    + cbn. apply NoDup_singleton.
  - apply Forall_app. split.
    + eapply Forall_impl; [exact Hall|]. intros r [Hlt Hne].
      rewrite length_app. split; [lia|]. by rewrite heap_read_app_l.
    + constructor; [|constructor]. rewrite Hpath, length_app. split; [simpl; lia|].
      by rewrite heap_read_app_new.
Qed.

Lemma visitFields_paths_ok ParseMarkers vs :
  ∀ rp (h : heap) e rp' h',
    visitFields ParseMarkers rp vs h = Returned (e, rp', h') →
    paths_ok (refs rp) h → paths_ok (refs rp') h'.
Proof.
  induction vs as [|v vs IH]; intros rp h e rp' h'.
  { by intros [= <- <- <-]. }
  cbn [visitFields].
  destruct (Process ParseMarkers rp (vNamed v) (vField v) (vTag v) (vComment v)
              (vParents v) h) as [[[e1 rp1] h1]|msg] eqn:Hp; [|done].
  cbn [mbind result_bind]. intros Hrest Hok.
  pose proof (Process_paths_ok _ _ _ _ _ _ _ _ _ _ _ Hp Hok) as Hok1.
  destruct e1 as [e1|].
  - by injection Hrest as <- <- <-.
  - by apply (IH _ _ _ _ _ Hrest).
Qed.

(** The references [NewResolveReferences] gets from a walk that did not
    fail meet what the theorems on the synthesizer assume. *)
Lemma Traverse_paths_ok ParseMarkers traverser namedType receiver ext (h : heap)
    rp' h' :
  Traverse ParseMarkers traverser namedType
    (NewReferenceProcessor receiver [WithDefaultExtractor ext]) h
  = Returned (None, rp', h') →
  NoDup (GoValueFieldPath <$> GetReferences rp')
  ∧ Forall (λ ref, heap_read h' (GoValueFieldPath ref) ≠ []) (GetReferences rp').
Proof.
  unfold Traverse.
  destruct (visitFields ParseMarkers
              (NewReferenceProcessor receiver [WithDefaultExtractor ext])
              (visits (traverser namedType)) h) as [[[e1 rp1] h1]|msg] eqn:Hv; [|done].
  cbn [mbind result_bind]. intros Hres.
  assert (rp1 = rp' ∧ h1 = h') as [-> ->].
  { destruct e1; cbn in Hres; [done|]. by injection Hres as _ <- <-. }
  apply visitFields_paths_ok in Hv as [Hdup Hall].
  - split; [done|]. eapply Forall_impl; [exact Hall|]. by intros r [_ ?].
  - cbn. split; constructor.
Qed.

(** ** Examples *)

Example cleaner_Replace_markers :
  cleaner_Replace "[]*Subnets" = "Subnets" ∧ cleaner_Replace "Subnets[i2]" = "Subnets[i2]".
Proof. split; reflexivity. Qed.

Example Split1_dots :
  strings.Split1 "github.com/acme/ec2.Subnet" "." = ["github"; "com/acme/ec2"; "Subnet"]
  ∧ strings.Split1 "a..b." "." = ["a"; EmptyString; "b"; EmptyString].
Proof. split; reflexivity. Qed.

Example getTypeCodeFromPath_qualified :
  getTypeCodeFromPath "github.com/acme/ec2.Subnet" ["List"]
  = [TOp "&"; TQual "github.com/acme/ec2" "SubnetList"; TValues []]
  ∧ getTypeCodeFromPath "Subnet" [] = [TOp "&"; TId "Subnet"; TValues []].
Proof. split; reflexivity. Qed.

(** Were the parser to report a marker with no value, reading its first
    value would make [Process] panic. *)
Example Process_panics_without_value :
  Process (λ _, {[ ReferenceTypeMarker := ["Subnet"];
                   ReferenceSelectorFieldNameMarker := [] ]})
    demo_processor {| types.ObjName := "Demo" |}
    (demo_field "SubnetID" (types.Basic "string")) EmptyString EmptyString [] []
  = Panicked "index out of range".
Proof. vm_compute. reflexivity. Qed.

(** A pointer field under a slice of structs under a pointer: the path
    [Process] builds, and the store after the method has been written. *)
Example value_path_through_synthesis :
  let walk : Traverser := λ _,
    {| visits := [demo_visit ["*Spec"; "[]Subnets"] "SubnetID"
                    (types.Pointer (types.Basic "string")) demo_comment];
       failure := None |} in
  (∃ rp, Traverse Example_markers.parse walk {| types.ObjName := "Demo" |}
           demo_processor []
         = Returned (None, rp, [["mg"; "*Spec"; "[]Subnets"; "SubnetID"]]))
  ∧ (∃ f, NewResolveReferences Example_markers.parse walk "mg" "client" "reference"
            [] demo_object []
          = Returned (f, [["mg"; "Spec"; "Subnets[i2]"; "SubnetID"]])).
Proof. split; eexists; vm_compute; reflexivity. Qed.

(** * Further properties *)

(** ** Strings *)

Lemma String_length_app s t :
  String.length (s +:+ t) = (String.length s + String.length t)%nat.
Proof. induction s as [|c s IH]; [done|]. simpl. by rewrite IH. Qed.

Lemma String_app_empty_r s : s +:+ EmptyString = s.
Proof.
  induction s as [|c s IH]; [done|].
  change (String c s +:+ EmptyString) with (String c (s +:+ EmptyString)).
  by rewrite IH.
Qed.

Lemma substring_app_l s t :
  String.substring 0 (String.length s) (s +:+ t) = s.
Proof. induction s as [|c s IH]; [by destruct t|]. simpl. by rewrite IH. Qed.

Lemma substring_app_r s t :
  String.substring (String.length s) (String.length t) (s +:+ t) = t.
Proof.
  induction s as [|c s IH]; [|exact IH]. simpl.
  induction t as [|c t IHt]; [done|]. simpl. f_equal. exact IHt.
Qed.

Lemma TrimSuffix_app s suffix :
  strings.TrimSuffix (s +:+ suffix) suffix = s.
Proof.
  unfold strings.TrimSuffix, strings.HasSuffix.
  rewrite String_length_app.
  replace (String.length s + String.length suffix - String.length suffix)%nat
    with (String.length s) by lia.
  rewrite substring_app_r, String.eqb_refl, substring_app_l.
  replace (String.length suffix <=? String.length s + String.length suffix)%nat
    with true by (symmetry; apply Nat.leb_le; lia).
  done.
Qed.

Lemma Split1_nonempty s c : strings.Split1 s c ≠ [].
Proof.
  destruct s as [|a s]; [done|]. cbn.
  destruct (Ascii.eqb a c); [done|]. by destruct (strings.Split1 s c).
Qed.

Lemma Split1_no_sep s c :
  has_char c s = false → strings.Split1 s c = [s].
Proof.
  induction s as [|a s IH]; [done|]. cbn.
  intros [Ha Hs]%orb_false_elim. rewrite Ha, IH by done. done.
Qed.

Lemma Split1_last s c name :
  has_char c name = false →
  strings.Split1 (s +:+ String c name) c = strings.Split1 s c ++ [name].
Proof.
  intros Hname. induction s as [|a s IH].
  - change (EmptyString +:+ String c name) with (String c name).
    cbn [strings.Split1]. by rewrite Ascii.eqb_refl, Split1_no_sep.
  - change (String a s +:+ String c name) with (String a (s +:+ String c name)).
    cbn [strings.Split1]. rewrite IH. destruct (Ascii.eqb a c); [done|].
    pose proof (Split1_nonempty s c).
    by destruct (strings.Split1 s c).
Qed.

Lemma at_last (l : list string) x : at_ (l ++ [x]) (length (l ++ [x]) - 1) = x.
Proof.
  unfold at_. rewrite length_app. cbn [length].
  replace (length l + 1 - 1)%nat with (length l) by lia.
  by rewrite list_lookup_middle.
Qed.

Lemma Split1_dotted pkg name :
  has_char "." name = false →
  ∃ words, strings.Split1 (pkg +:+ "." +:+ name) "." = words ++ [name]
           ∧ words ≠ [].
Proof.
  intros Hname. exists (strings.Split1 pkg ".").
  split; [|apply Split1_nonempty].
  change ("." +:+ name) with (String "." name). by apply Split1_last.
Qed.

(** ** Code of a type or function path *)

Lemma getFuncCodeFromPath_dotted pkg name :
  has_char "." name = false →
  getFuncCodeFromPath (pkg +:+ "." +:+ name) = [TQual pkg name].
Proof.
  intros Hname. unfold getFuncCodeFromPath.
  destruct (Split1_dotted pkg name Hname) as (words & -> & Hne).
  rewrite at_last.
  replace (length (words ++ [name]) =? 1)%nat with false.
  2:{ symmetry. apply Nat.eqb_neq. rewrite length_app. destruct words; [done|].
      cbn. lia. }
  by rewrite TrimSuffix_app.
Qed.

Lemma getTypeCodeFromPath_dotted pkg name nameSuffix :
  has_char "." name = false →
  getTypeCodeFromPath (pkg +:+ "." +:+ name) nameSuffix
  = [TOp "&"; TQual pkg (name +:+ strings.Join nameSuffix EmptyString); TValues []].
Proof.
  intros Hname. unfold getTypeCodeFromPath.
  destruct (Split1_dotted pkg name Hname) as (words & -> & Hne).
  rewrite at_last.
  replace (length (words ++ [name]) =? 1)%nat with false.
  2:{ symmetry. apply Nat.eqb_neq. rewrite length_app. destruct words; [done|].
      cbn. lia. }
  by rewrite TrimSuffix_app.
Qed.

(** X1: a function path is cut at its last dot: what comes before is the
    package, what comes after the name; a path without dot is a name of
    the package at hand. *)
Theorem getFuncCodeFromPath_last_dot pkg name :
  has_char "." name = false →
  getFuncCodeFromPath name = [TId name]
  ∧ getFuncCodeFromPath (pkg +:+ "." +:+ name) = [TQual pkg name].
Proof.
  intros Hname. split.
  - unfold getFuncCodeFromPath. by rewrite Split1_no_sep.
  - by apply getFuncCodeFromPath_dotted.
Qed.

Lemma getFuncCodeFromPath_last_dot_witness :
  getFuncCodeFromPath "ARN" = [TId "ARN"]
  ∧ getFuncCodeFromPath ("github.com/acme/iam" +:+ "." +:+ "ARN")
    = [TQual "github.com/acme/iam" "ARN"].
Proof. apply getFuncCodeFromPath_last_dot. reflexivity. Defined.

(** X2: a type path is cut at its last dot as well, and the suffixes are
    appended to the name, never to the package. *)
Theorem getTypeCodeFromPath_last_dot pkg name nameSuffix :
  has_char "." name = false →
  getTypeCodeFromPath name nameSuffix
  = [TOp "&"; TId (name +:+ strings.Join nameSuffix EmptyString); TValues []]
  ∧ getTypeCodeFromPath (pkg +:+ "." +:+ name) nameSuffix
    = [TOp "&"; TQual pkg (name +:+ strings.Join nameSuffix EmptyString); TValues []].
Proof.
  intros Hname. split.
  - unfold getTypeCodeFromPath. by rewrite Split1_no_sep.
  - by apply getTypeCodeFromPath_dotted.
Qed.

Lemma getTypeCodeFromPath_last_dot_witness :
  getTypeCodeFromPath "Subnet" ["List"]
  = [TOp "&"; TId ("Subnet" +:+ strings.Join ["List"] EmptyString); TValues []]
  ∧ getTypeCodeFromPath ("github.com/acme/ec2" +:+ "." +:+ "Subnet") ["List"]
    = [TOp "&";
       TQual "github.com/acme/ec2" ("Subnet" +:+ strings.Join ["List"] EmptyString);
       TValues []].
Proof. apply getTypeCodeFromPath_last_dot. reflexivity. Defined.

(** ** The cleaner *)

Lemma cleaner_Replace_no_star_aux s :
  has_char "*" (cleaner_Replace s) = false
  ∧ ∀ c, has_char "*" (cleaner_Replace (String c s)) = false.
Proof.
  induction s as [|a s [IH1 IH2]].
  - split; [done|]. intros c. cbn [cleaner_Replace].
    destruct (Ascii.eqb c "[") eqn:Hb; [by apply Ascii.eqb_eq in Hb as ->|].
    destruct (Ascii.eqb c "*") eqn:Hs; [done|]. cbn. by rewrite Hs.
  - split; [apply IH2|]. intros c.
    change (cleaner_Replace (String c (String a s)))
      with (if Ascii.eqb c "[" then
              if Ascii.eqb a "]" then cleaner_Replace s
              else String c (cleaner_Replace (String a s))
            else if Ascii.eqb c "*" then cleaner_Replace (String a s)
            else String c (cleaner_Replace (String a s))).
    destruct (Ascii.eqb c "[") eqn:Hb.
    + apply Ascii.eqb_eq in Hb as ->.
      destruct (Ascii.eqb a "]"); [done|].
      cbn [has_char]. by rewrite IH2.
    + destruct (Ascii.eqb c "*") eqn:Hs; [by apply IH2|].
      cbn [has_char]. by rewrite Hs, IH2.
Qed.

(** X3: the cleaner leaves no "*" in what it returns, and never returns more
    than it was given. *)
Theorem cleaner_Replace_drops_stars s :
  has_char "*" (cleaner_Replace s) = false
  ∧ (String.length (cleaner_Replace s) <= String.length s)%nat.
Proof.
  split; [apply cleaner_Replace_no_star_aux|].
  assert ((String.length (cleaner_Replace s) <= String.length s)%nat
          ∧ ∀ c, (String.length (cleaner_Replace (String c s))
                  <= S (String.length s))%nat) as [H _]; [|done].
  induction s as [|a s [IH1 IH2]].
  - split; [done|]. intros c. cbn [cleaner_Replace].
    destruct (Ascii.eqb c "["); [done|]. destruct (Ascii.eqb c "*"); cbn; lia.
  - split; [apply IH2|]. intros c.
    change (cleaner_Replace (String c (String a s)))
      with (if Ascii.eqb c "[" then
              if Ascii.eqb a "]" then cleaner_Replace s
              else String c (cleaner_Replace (String a s))
            else if Ascii.eqb c "*" then cleaner_Replace (String a s)
            else String c (cleaner_Replace (String a s))).
    specialize (IH2 a). cbn [String.length] in *.
    destruct (Ascii.eqb c "["); [destruct (Ascii.eqb a "]")|destruct (Ascii.eqb c "*")];
      cbn [String.length]; lia.
Qed.

(** ** Guards and loops by marker *)

Lemma unmarked_at (fields : list string) i :
  Forall unmarked fields → unmarked (at_ fields i).
Proof.
  intros Hall. unfold at_. destruct (fields !! i) as [x|] eqn:Hx.
  - rewrite Forall_forall in Hall. apply Hall. by eapply list_elem_of_lookup_2.
  - done.
Qed.

Lemma insert_at_id (fields : list string) i :
  <[i := at_ fields i]> fields = fields.
Proof.
  unfold at_. destruct (fields !! i) as [x|] eqn:Hx; cbn.
  - by apply list_insert_id.
  - apply list_insert_ge. by apply lookup_ge_None.
Qed.

Lemma guards_from_unmarked remaining inner (fields : list string) :
  Forall unmarked fields →
  ∀ index, guards_from remaining index fields inner = inner.
Proof.
  intros Hall. induction remaining as [|k IH]; intros index; [done|].
  cbn [guards_from].
  destruct (unmarked_at fields index Hall) as [Hstar Hrep].
  rewrite Hstar, Hrep. unfold narrow. rewrite Hstar, Hrep, insert_at_id.
  apply IH.
Qed.

Lemma guards_from_wrapped inner remaining :
  ∀ index (fields : list string),
    remaining = (length fields - index)%nat →
    wrapped (omap mark_of (drop index fields)) inner
      (guards_from remaining index fields inner).
Proof.
  induction remaining as [|k IH]; intros index fields Hrem.
  - rewrite drop_ge by lia. constructor.
  - cbn [guards_from].
    destruct (fields !! index) as [field|] eqn:Hfield;
      [|apply lookup_ge_None in Hfield; lia].
    rewrite (drop_S fields field index) by done.
    assert (at_ fields index = field) as -> by (unfold at_; by rewrite Hfield).
    specialize (IH (index + 1)%nat (<[index := narrow index field]> fields)).
    rewrite length_insert in IH. specialize (IH ltac:(lia)).
    replace (index + 1)%nat with (S index) in IH |- * by lia.
    rewrite drop_insert_lt in IH by lia.
    cbn [omap list_omap]. unfold mark_of.
    destruct (strings.HasPrefix field "*");
      [|destruct (strings.HasPrefix field "[]")].
    + by constructor.
    + by constructor.
    + exact IH.
Qed.

(** ** The variables of the loops *)

Lemma to_uint_not_Nil n : Nat.to_uint n ≠ Decimal.Nil.
Proof.
  intros Hnil. pose proof (DecimalNat.Unsigned.of_to n) as Hn.
  rewrite Hnil in Hn. cbn in Hn. subst n. discriminate Hnil.
Qed.

Lemma itoa_inj j k : itoa j = itoa k → j = k.
Proof.
  unfold itoa. intros Heq.
  apply DecimalNat.Unsigned.to_uint_inj.
  pose proof (NilZero.usu (Nat.to_uint j) (to_uint_not_Nil j)) as Hj.
  pose proof (NilZero.usu (Nat.to_uint k) (to_uint_not_Nil k)) as Hk.
  rewrite Heq in Hj. rewrite Hj in Hk. by injection Hk.
Qed.

Lemma loop_names_from k (fields : list string) name :
  name ∈ loop_names k fields → ∃ j, (k <= j)%nat ∧ name = "i" +:+ itoa j.
Proof.
  revert k. induction fields as [|field fields IH]; intros k; cbn [loop_names].
  - by intros ?%not_elem_of_nil.
  - intros [Hin|Hin]%elem_of_app.
    + destruct (mark_of field) as [[]|]; try by apply not_elem_of_nil in Hin.
      apply list_elem_of_singleton in Hin. exists k. by split.
    + destruct (IH _ Hin) as (j & Hj & ->). exists j. split; [lia|done].
Qed.

Lemma loop_names_NoDup k (fields : list string) : NoDup (loop_names k fields).
Proof.
  revert k. induction fields as [|field fields IH]; intros k; cbn [loop_names].
  - constructor.
  - apply NoDup_app. split; [|split; [|apply IH]].
    + destruct (mark_of field) as [[]|]; try constructor; [|constructor].
      apply not_elem_of_nil.
    + intros name Hin Hin'.
      destruct (mark_of field) as [[]|]; try by apply not_elem_of_nil in Hin.
      apply list_elem_of_singleton in Hin as ->.
      destruct (loop_names_from _ _ _ Hin') as (j & Hj & Heq).
      injection Heq as Heq. apply itoa_inj in Heq. lia.
Qed.

Lemma loop_vars_guards inner remaining :
  ∀ index (fields : list string),
    remaining = (length fields - index)%nat →
    loop_vars (guards_from remaining index fields inner)
    = loop_names index (drop index fields) ++ loop_vars inner.
Proof.
  induction remaining as [|k IH]; intros index fields Hrem.
  - by rewrite drop_ge by lia.
  - cbn [guards_from].
    destruct (fields !! index) as [field|] eqn:Hfield;
      [|apply lookup_ge_None in Hfield; lia].
    rewrite (drop_S fields field index) by done.
    assert (at_ fields index = field) as -> by (unfold at_; by rewrite Hfield).
    specialize (IH (index + 1)%nat (<[index := narrow index field]> fields)).
    rewrite length_insert in IH. specialize (IH ltac:(lia)).
    replace (index + 1)%nat with (S index) in IH |- * by lia.
    rewrite drop_insert_lt in IH by lia.
    cbn [loop_names]. unfold mark_of.
    destruct (strings.HasPrefix field "*");
      [|destruct (strings.HasPrefix field "[]")].
    + unfold loop_vars in *. cbn. by rewrite !app_nil_r, IH.
    + unfold loop_vars in *. cbn. by rewrite !app_nil_r, IH.
    + exact IH.
Qed.

Lemma loop_vars_selector sel rest :
  Forall (λ c, is_selector c = true) sel →
  loop_vars (sel ++ rest) = loop_vars rest.
Proof.
  intros Hsel. unfold loop_vars. rewrite flat_map_app.
  replace (flat_map loop_vars_in sel) with (@nil string); [done|].
  induction Hsel as [|c sel Hc _ IH]; [done|].
  cbn [flat_map]. rewrite <- IH. by destruct c.
Qed.

Lemma loop_vars_Stmts items :
  loop_vars (Stmts items) = flat_map loop_vars items.
Proof.
  unfold loop_vars, Stmts. induction items as [|s items IH]; [done|].
  rewrite fmap_cons. cbn [flat_map loop_vars_in]. by rewrite IH.
Qed.

Lemma loop_vars_terminal ref pkg (h : heap) :
  loop_vars (terminal_stmt ref pkg h) = [].
Proof.
  unfold terminal_stmt, terminalCall.
  unfold multiResolutionCall, singleResolutionCall, wrapReturn.
  pose proof (prefixPathOf_selector (heap_read h (GoValueFieldPath ref))) as Hp.
  destruct (IsSlice ref); cbv beta;
    set (p := prefixPathOf (heap_read h (GoValueFieldPath ref))) in *;
    (destruct (length (heap_read h (GoValueFieldPath ref)) =? 0)%nat;
     [reflexivity|]);
    destruct (IsPointer ref); cbn [mret result_ret];
    rewrite loop_vars_Stmts; unfold_jen;
    cbn [flat_map];
    rewrite ?loop_vars_Stmts;
    cbn [flat_map];
    rewrite ?loop_vars_selector by exact Hp;
    reflexivity.
Qed.

(** ** Properties of the guard builder *)

Lemma encapsulate_unmarked index callFn (fields : loc) (h : heap) :
  Forall unmarked (heap_read h fields) →
  encapsulate index callFn fields h = (s ← callFn fields h; mret (s, h)).
Proof.
  intros Hall.
  rewrite (encapsulate_factor callFn fields
             (length (heap_read h fields) - index)) by done.
  cbn zeta.
  assert (narrow_from index (heap_read h fields) = heap_read h fields) as ->.
  { apply list_eq. intros i. unfold narrow_from. rewrite list_lookup_imap.
    destruct (heap_read h fields !! i) as [field|] eqn:Hi; [|done]. cbn.
    destruct (index <=? i)%nat; [|done].
    rewrite Forall_forall in Hall.
    destruct (Hall field) as [Hstar Hrep]; [by eapply list_elem_of_lookup_2|].
    unfold narrow. by rewrite Hstar, Hrep. }
  rewrite heap_insert_read.
  destruct (callFn fields h); [|done]. cbn.
  by rewrite guards_from_unmarked.
Qed.

(** X4: for a reference none of whose path fields carries a marker, the
    block is the terminal call as it is, singular or plural, with no
    guard and no loop around it, and the path is left as it was. *)
Theorem unmarked_path_gets_bare_call ref pkg (h : heap) :
  heap_read h (GoValueFieldPath ref) ≠ [] →
  Forall unmarked (heap_read h (GoValueFieldPath ref)) →
  ∃ call,
    terminalCall ref pkg (GoValueFieldPath ref) h = Returned call
    ∧ encapsulate 0 (terminalCall ref pkg) (GoValueFieldPath ref) h
      = Returned (call, h)
    ∧ resolverLoop pkg [ref] false false [] h
      = Returned (IsSlice ref, negb (IsSlice ref), [call ++ [TLine]], h).
Proof.
  intros Hne Hall.
  destruct (terminalCall_returns ref pkg (GoValueFieldPath ref) h Hne)
    as [call Hcall].
  exists call. split; [done|].
  pose proof (encapsulate_unmarked 0 (terminalCall ref pkg)
                (GoValueFieldPath ref) h Hall) as Henc.
  rewrite Hcall in Henc. split; [exact Henc|].
  cbn [resolverLoop]. unfold terminalCall in Henc.
  destruct (IsSlice ref); rewrite Henc; reflexivity.
Qed.

Lemma unmarked_path_gets_bare_call_witness :
  let ref := demo_ref 0 true true in
  let h : heap := [["mg"; "Spec"; "ForProvider"; "SubnetIDs"]] in
  ∃ call,
    terminalCall ref "reference" (GoValueFieldPath ref) h = Returned call
    ∧ encapsulate 0 (terminalCall ref "reference") (GoValueFieldPath ref) h
      = Returned (call, h)
    ∧ resolverLoop "reference" [ref] false false [] h
      = Returned (IsSlice ref, negb (IsSlice ref), [call ++ [TLine]], h).
Proof.
  intros ref h. apply (unmarked_path_gets_bare_call ref "reference" h).
  - discriminate.
  - repeat constructor.
Defined.

(** X5: the wrappers [encapsulate] emits are those the fields from [index]
    on ask for by their prefix, one for each, the first outermost: a
    null check for "*", a loop for "[]" without "*" before it, whatever
    else the field holds. *)
Theorem encapsulate_wraps_by_marker index callFn (fields : loc) (h : heap) :
  let h' := <[fields := narrow_from index (heap_read h fields)]> h in
  ∃ wrap : Statement → Statement,
    (∀ s, wrapped (omap mark_of (drop index (heap_read h fields))) s (wrap s))
    ∧ encapsulate index callFn fields h
      = (s ← callFn fields h'; mret (wrap s, h')).
Proof.
  intros h'.
  exists (guards_from (length (heap_read h fields) - index) index
            (heap_read h fields)).
  split.
  - intros s. by apply guards_from_wrapped.
  - by rewrite (encapsulate_factor callFn fields
                  (length (heap_read h fields) - index)).
Qed.

(** X6: the loops of the block of a reference are named after the positions
    of the fields they run over, [i<k>] for position [k], so that no two
    loops of a block share a variable. *)
Theorem loop_variables_distinct ref pkg (h : heap) :
  heap_read h (GoValueFieldPath ref) ≠ [] →
  ∃ block h',
    encapsulate 0 (terminalCall ref pkg) (GoValueFieldPath ref) h
    = Returned (block, h')
    ∧ loop_vars block = loop_names 0 (heap_read h (GoValueFieldPath ref))
    ∧ NoDup (loop_vars block).
Proof.
  intros Hne. rewrite encapsulate_terminalCall by done.
  do 2 eexists. split; [done|].
  assert (loop_vars
            (guards_from (length (heap_read h (GoValueFieldPath ref))) 0
               (heap_read h (GoValueFieldPath ref))
               (terminal_stmt ref pkg (narrowed h (GoValueFieldPath ref))))
          = loop_names 0 (heap_read h (GoValueFieldPath ref))) as Heq.
  { rewrite loop_vars_guards by lia.
    by rewrite loop_vars_terminal, app_nil_r, drop_0. }
  split; [done|]. rewrite Heq. apply loop_names_NoDup.
Qed.

Lemma loop_variables_distinct_witness :
  ∃ block h',
    encapsulate 0 (terminalCall (demo_ref 0 false true) "reference") 0%nat
      [["mg"; "[]Zones"; "*Net"; "[]Subnets"; "SubnetID"]]
    = Returned (block, h')
    ∧ loop_vars block = ["i1"; "i3"]
    ∧ NoDup (loop_vars block).
Proof.
  apply (loop_variables_distinct (demo_ref 0 false true) "reference"
           [["mg"; "[]Zones"; "*Net"; "[]Subnets"; "SubnetID"]]).
  discriminate.
Defined.

Lemma qualified_path_unmarked segs :
  ∀ k, Forall (λ seg, plain_name (seg_name seg) = true) segs →
       Forall unmarked (qualified_path k segs).
Proof.
  induction segs as [|seg segs IH]; intros k Hplain; [constructor|].
  inversion Hplain as [|? ? Hseg Hsegs]; subst.
  cbn [qualified_path]. constructor; [|by apply IH].
  pose proof (HasPrefix_plain _ Hseg) as Hname.
  destruct (seg_shape seg); try exact Hname.
  destruct (seg_name seg) as [|c name] eqn:Hn; [by split|].
  cbn [plain_name] in Hseg.
  apply andb_prop in Hseg as [[H1 H2]%andb_prop _].
  apply negb_true_iff in H1, H2.
  change (String c name +:+ "[i" +:+ itoa k +:+ "]")
    with (String c (name +:+ "[i" +:+ itoa k +:+ "]")).
  unfold unmarked, strings.HasPrefix. rewrite !prefix_String.
  by rewrite (Ascii.eqb_sym "*"), (Ascii.eqb_sym "["), H1, H2.
Qed.

(** X7: once [encapsulate] has gone through a path its markers are gone:
    going through the same path again, in the store the first pass left,
    emits the bare call, without the guards and loops of the first time. *)
Theorem encapsulate_again_is_bare_call callFn (fields : loc) (h : heap) segs
    first h1 :
  Forall (λ seg, plain_name (seg_name seg) = true) segs →
  h !! fields = Some (tagged <$> segs) →
  encapsulate 0 callFn fields h = Returned (first, h1) →
  heap_read h1 fields = qualified_path 0 segs
  ∧ encapsulate 0 callFn fields h1 = (s ← callFn fields h1; mret (s, h1)).
Proof.
  intros Hplain Hl Hfirst.
  pose proof (encapsulate_guard_builder callFn fields h [] segs Hplain
                ltac:(constructor) Hl) as Hgb.
  cbn [length app] in Hgb. rewrite Hgb in Hfirst.
  destruct (guard_builder _ _ _) as [s|]; [|done].
  injection Hfirst as _ <-.
  assert (heap_read (<[fields := qualified_path 0 segs]> h) fields
          = qualified_path 0 segs) as Hread.
  { unfold heap_read. by rewrite list_lookup_insert_eq
      by (by apply lookup_lt_Some in Hl). }
  split; [done|].
  apply encapsulate_unmarked. rewrite Hread. by apply qualified_path_unmarked.
Qed.

Lemma encapsulate_again_is_bare_call_witness :
  let callFn := singleResolutionCall (demo_ref 0 false true) "reference" in
  let h1 : heap := [["mg"; "Spec"; "Subnets[i2]"; "SubnetID"]] in
  heap_read h1 0%nat = qualified_path 0 demo_segments
  ∧ encapsulate 0 callFn 0%nat h1 = (s ← callFn 0%nat h1; mret (s, h1)).
Proof.
  intros callFn h1.
  eapply (encapsulate_again_is_bare_call callFn 0%nat
            [tagged <$> demo_segments] demo_segments).
  - repeat constructor.
  - reflexivity.
  - vm_compute. reflexivity.
Defined.

(** X8: the terminal calls read [fields[0]]: on an empty path the guard
    builder panics with them, on any other it returns a block. *)
Theorem encapsulate_needs_a_path index ref pkg (fields : loc) (h : heap) :
  match heap_read h fields with
  | [] => encapsulate index (terminalCall ref pkg) fields h
          = Panicked "index out of range"
  | _ :: _ => ∃ block h', encapsulate index (terminalCall ref pkg) fields h
                          = Returned (block, h')
  end.
Proof.
  rewrite (encapsulate_factor _ fields (length (heap_read h fields) - index))
    by done.
  cbn zeta.
  destruct (heap_read h fields) as [|field rest] eqn:Hfs.
  - cbn. rewrite <- Hfs, heap_insert_read.
    unfold terminalCall, multiResolutionCall, singleResolutionCall.
    destruct (IsSlice ref); by rewrite Hfs.
  - destruct (terminalCall_returns ref pkg fields
                (<[fields := narrow_from index (field :: rest)]> h)) as [s ->].
    + rewrite <- Hfs. fold (narrow_from index (heap_read h fields)).
      intros Hnil. apply (f_equal length) in Hnil.
      assert (length (heap_read (<[fields := narrow_from index (heap_read h fields)]> h)
                        fields) = length (heap_read h fields)) as Hlen.
      { unfold heap_read at 1.
        destruct (h !! fields) as [fs|] eqn:Hl.
        - rewrite list_lookup_insert_eq by (by apply lookup_lt_Some in Hl).
          cbn. by rewrite narrow_from_length.
        - unfold heap_read in Hfs. by rewrite Hl in Hfs. }
      rewrite Hlen, Hfs in Hnil. done.
    + by do 2 eexists.
Qed.

(** ** The request of a terminal call *)

Lemma at_lookup (l : list string) i x : l !! i = Some x → at_ l i = x.
Proof. intros Hx. unfold at_. by rewrite Hx. Qed.

Lemma dots_take (x : string) (r : list string) n :
  (n <= length r)%nat →
  (λ i, TDot (at_ (x :: r) i)) <$> seq 1 n = TDot <$> take n r.
Proof.
  induction n as [|n IH]; intros Hn; [done|].
  rewrite seq_S, fmap_app, IH by lia.
  destruct (r !! n) as [y|] eqn:Hy; [|apply lookup_ge_None in Hy; lia].
  rewrite (take_S_r r n y) by done. rewrite fmap_app. f_equal.
  change ((λ i, TDot (at_ (x :: r) i)) <$> [(1 + n)%nat])
    with [TDot (at_ (x :: r) (S n))].
  by rewrite (at_lookup (x :: r) (S n) y).
Qed.

Lemma prefixPathOf_init (fields : list string) :
  (2 <= length fields)%nat →
  prefixPathOf fields = path_expr (removelast fields)
  ∧ prefixPathOf fields ++ [TDot (at_ fields (length fields - 1))]
    = path_expr fields.
Proof.
  intros Hlen. destruct fields as [|x r]; [cbn in Hlen; lia|].
  assert (r ≠ []) as Hr by (destruct r; [cbn in Hlen; lia|done]).
  assert (prefixPathOf (x :: r) = TId x :: (TDot <$> take (length r - 1) r))
    as Hprefix.
  { unfold prefixPathOf. rewrite foldl_Dot.
    rewrite (at_lookup (x :: r) 0 x) by done.
    unfold jen, Id. cbn [app length]. f_equal.
    replace (S (length r) - 2)%nat with (length r - 1)%nat by lia.
    apply dots_take. lia. }
  split.
  - rewrite Hprefix. destruct r as [|y r]; [done|].
    change (removelast (x :: y :: r)) with (x :: removelast (y :: r)).
    cbn [path_expr]. rewrite removelast_firstn_len.
    do 3 f_equal. cbn. lia.
  - rewrite Hprefix. cbn [length app path_expr]. f_equal.
    destruct (r !! (length r - 1)%nat) as [y|] eqn:Hy.
    2:{ apply lookup_ge_None in Hy. destruct r; [done|]. cbn in Hy. lia. }
    replace (S (length r) - 1)%nat with (S (length r - 1)) by
      (destruct r; [done|]; cbn; lia).
    rewrite (at_lookup (x :: r) (S (length r - 1)) y) by done.
    change [TDot y] with (TDot <$> [y]).
    rewrite <- fmap_app, <- take_S_r by done.
    rewrite take_ge; [done|]. destruct r; [done|]. cbn. lia.
Qed.

(** X9: for a path of two fields or more, the request of the terminal call
    names the current value by the selector expression of the whole path,
    through the pointer helper when the field is a pointer, and the
    reference and selector fields as siblings of the last field: the path
    without its last field, then the name of the sibling. *)
Theorem terminal_call_request ref pkg (h : heap) :
  let path := heap_read h (GoValueFieldPath ref) in
  (2 <= length path)%nat →
  ∃ call entries,
    terminalCall ref pkg (GoValueFieldPath ref) h = Returned call
    ∧ request_of call = Some entries
    ∧ dict_get (if IsSlice ref then "CurrentValues" else "CurrentValue") entries
      = Some (if IsPointer ref
              then [TQual pkg (if IsSlice ref then "FromPtrValues" else "FromPtrValue");
                    TCall [path_expr path]]
              else path_expr path)
    ∧ dict_get (if IsSlice ref then "References" else "Reference") entries
      = Some (path_expr (removelast path ++ [GoRefFieldName ref]))
    ∧ dict_get "Selector" entries
      = Some (path_expr (removelast path ++ [GoSelectorFieldName ref]))
    ∧ dict_get "Extract" entries = Some (Extractor ref).
Proof.
  intros path Hlen.
  destruct (prefixPathOf_init path Hlen) as [Hinit Hwhole].
  assert (removelast path ≠ []) as Hne.
  { destruct path as [|x [|y r]]; cbn in Hlen; try lia. done. }
  unfold terminalCall, multiResolutionCall, singleResolutionCall.
  fold path.
  destruct (IsSlice ref); cbv beta; fold path;
    (destruct (length path =? 0)%nat eqn:H0; [apply Nat.eqb_eq in H0; lia|]);
    destruct (IsPointer ref); cbn [mret result_ret]; unfold_jen;
    do 2 eexists; (split; [reflexivity|]); (split; [reflexivity|]);
    cbn [dict_get String.eqb Ascii.eqb Bool.eqb];
    rewrite !path_expr_snoc by done; rewrite <- Hinit, Hwhole; done.
Qed.

Lemma terminal_call_request_witness :
  let ref := demo_ref 0 false true in
  let h : heap := [["mg"; "Spec"; "Subnets[i2]"; "SubnetID"]] in
  let path := heap_read h (GoValueFieldPath ref) in
  ∃ call entries,
    terminalCall ref "reference" (GoValueFieldPath ref) h = Returned call
    ∧ request_of call = Some entries
    ∧ dict_get "CurrentValue" entries
      = Some [TQual "reference" "FromPtrValue"; TCall [path_expr path]]
    ∧ dict_get "Reference" entries
      = Some (path_expr (removelast path ++ ["SubnetIDRef"]))
    ∧ dict_get "Selector" entries
      = Some (path_expr (removelast path ++ ["SubnetIDSelector"]))
    ∧ dict_get "Extract" entries = Some [TQual "reference" "ExternalName"; TCall []].
Proof.
  intros ref h path.
  apply (terminal_call_request ref "reference" h). cbn. lia.
Defined.

(** ** The extractor along a walk *)

Lemma marked_lookup (markers : gmap string (list string)) :
  default [] (markers !! ReferenceTypeMarker) ≠ [] →
  ∃ refType more, markers !! ReferenceTypeMarker = Some (refType :: more).
Proof.
  destruct (markers !! ReferenceTypeMarker) as [[|refType more]|]; try done.
  intros _. by do 2 eexists.
Qed.

Lemma visitFields_spec ParseMarkers vs :
  ∀ rp (h : heap),
    Forall (λ v, values_present (ParseMarkers (vComment v))) vs →
    ∃ new,
      visitFields ParseMarkers rp vs h
      = Returned (None,
                  {| DefaultExtractor := DefaultExtractor rp;
                     Receiver := Receiver rp;
                     refs := refs rp ++ new |},
                  h ++ (path_of (Receiver rp) <$> List.filter (is_marked ParseMarkers) vs))
      ∧ SourceName <$> new
        = (λ v, types.Name (vField v)) <$> List.filter (is_marked ParseMarkers) vs
      ∧ GoValueFieldPath <$> new = seq (length h) (length new).
Proof.
  induction vs as [|v vs IH]; intros rp h Hwf.
  - exists []. cbn. rewrite !app_nil_r. by destruct rp.
  - inversion Hwf as [|? ? Hv Hvs]; subst.
    cbn [visitFields List.filter].
    destruct (is_marked ParseMarkers v) eqn:Hmarked; unfold is_marked in Hmarked.
    2:{ rewrite Process_unmarked.
        - cbn [mbind result_bind]. by apply IH.
        - apply negb_false_iff, Nat.eqb_eq in Hmarked.
          by apply length_zero_iff_nil. }
    + destruct (marked_lookup (ParseMarkers (vComment v))) as (refType & more & Htype).
      { intros Hnil. by rewrite Hnil in Hmarked. }
      rewrite (Process_marked ParseMarkers rp (vNamed v) (vField v) (vTag v)
                 (vComment v) (vParents v) h refType more) by done.
      cbn [mbind result_bind].
      set (ref := reference_of rp (vField v) (ParseMarkers (vComment v)) refType
                    (length h)).
      destruct (IH {| DefaultExtractor := DefaultExtractor rp;
                      Receiver := Receiver rp;
                      refs := refs rp ++ [ref] |}
                   (h ++ [Receiver rp :: vParents v ++ [types.Name (vField v)]])
                   Hvs) as (new & Hrun & Hnames & Hpaths).
      exists (ref :: new). cbn [Receiver DefaultExtractor refs] in Hrun.
      rewrite Hrun. split; [|split].
      * rewrite <- !app_assoc. done.
      * rewrite !fmap_cons, Hnames. f_equal. unfold ref, reference_of.
        by destruct (fieldShape _) as [[? ?] ?].
      * rewrite fmap_cons, Hpaths, length_app. cbn [length seq].
        replace (length h + 1)%nat with (S (length h)) by lia. f_equal.
        unfold ref, reference_of. by destruct (fieldShape _) as [[? ?] ?].
Qed.

(** ** Properties of the extractor *)

(** X10: on a marked field [Process] appends one reference and allocates one
    array for its path: the receiver, the ancestors as they were given,
    markers and all, then the name of the field.  The references and the
    arrays there were, the receiver and the default extractor stay. *)
Theorem Process_appends_reference ParseMarkers rp n f tag comment parentFields
    (h : heap) refType more :
  values_present (ParseMarkers comment) →
  ParseMarkers comment !! ReferenceTypeMarker = Some (refType :: more) →
  ∃ rp' h' ref,
    Process ParseMarkers rp n f tag comment parentFields h = Returned (None, rp', h')
    ∧ GetReferences rp' = GetReferences rp ++ [ref]
    ∧ Receiver rp' = Receiver rp
    ∧ DefaultExtractor rp' = DefaultExtractor rp
    ∧ SourceName ref = types.Name f
    ∧ GoValueFieldPath ref = length h
    ∧ heap_read h' (GoValueFieldPath ref)
      = Receiver rp :: parentFields ++ [types.Name f]
    ∧ length h' = S (length h)
    ∧ (∀ l, (l < length h)%nat → heap_read h' l = heap_read h l).
Proof.
  intros Hwf Htype.
  rewrite (Process_marked ParseMarkers rp n f tag comment parentFields h refType more)
    by done.
  do 3 eexists. split; [done|]. split; [done|]. split; [done|]. split; [done|].
  unfold reference_of. destruct (fieldShape (types.Type' f)) as [[? ?] ?].
  cbn [SourceName GoValueFieldPath].
  split; [done|]. split; [done|]. split; [|split].
  - unfold heap_read. by rewrite list_lookup_middle.
  - rewrite length_app. cbn. lia.
  - intros l Hl. unfold heap_read. by rewrite lookup_app_l.
Qed.

Lemma Process_appends_reference_witness :
  ∃ rp' h' ref,
    Process Example_markers.parse demo_processor {| types.ObjName := "Demo" |}
      (demo_field "SubnetID" (types.Pointer (types.Basic "string"))) EmptyString
      demo_comment ["*Spec"; "[]Subnets"] [["mg"; "Region"]]
    = Returned (None, rp', h')
    ∧ GetReferences rp' = GetReferences demo_processor ++ [ref]
    ∧ Receiver rp' = Receiver demo_processor
    ∧ DefaultExtractor rp' = DefaultExtractor demo_processor
    ∧ SourceName ref = "SubnetID"
    ∧ GoValueFieldPath ref = 1%nat
    ∧ heap_read h' (GoValueFieldPath ref) = ["mg"; "*Spec"; "[]Subnets"; "SubnetID"]
    ∧ length h' = 2%nat
    ∧ (∀ l, (l < 1)%nat → heap_read h' l = heap_read [["mg"; "Region"]] l).
Proof.
  apply (Process_appends_reference Example_markers.parse demo_processor
           {| types.ObjName := "Demo" |}
           (demo_field "SubnetID" (types.Pointer (types.Basic "string")))
           EmptyString demo_comment ["*Spec"; "[]Subnets"] [["mg"; "Region"]]
           "github.com/acme/ec2.Subnet" []).
  - apply example_parse_values_present.
  - vm_compute. reflexivity.
Defined.

(** X11: the remote type of a reference is the first value of the type marker
    cut at its last dot, its list type the same name with [List] in the
    same package; the extractor is the first value of the extractor
    marker, cut likewise, and the default extractor without the marker. *)
Theorem Process_remote_types ParseMarkers rp n f tag comment parentFields
    (h : heap) pkg name more :
  values_present (ParseMarkers comment) →
  has_char "." name = false →
  ParseMarkers comment !! ReferenceTypeMarker
  = Some ((pkg +:+ "." +:+ name) :: more) →
  ∃ rp' h' ref,
    Process ParseMarkers rp n f tag comment parentFields h = Returned (None, rp', h')
    ∧ GetReferences rp' = GetReferences rp ++ [ref]
    ∧ RemoteType ref = [TOp "&"; TQual pkg name; TValues []]
    ∧ RemoteListType ref = [TOp "&"; TQual pkg (name +:+ "List"); TValues []]
    ∧ (ParseMarkers comment !! ReferenceExtractorMarker = None →
       Extractor ref = DefaultExtractor rp)
    ∧ (∀ epkg ename vs,
         has_char "." ename = false →
         ParseMarkers comment !! ReferenceExtractorMarker
         = Some ((epkg +:+ "." +:+ ename) :: vs) →
         Extractor ref = [TQual epkg ename]).
Proof.
  intros Hwf Hname Htype.
  rewrite (Process_marked ParseMarkers rp n f tag comment parentFields h
             (pkg +:+ "." +:+ name) more) by done.
  do 3 eexists. split; [done|]. split; [done|].
  unfold reference_of. destruct (fieldShape (types.Type' f)) as [[? ?] ?].
  cbn [RemoteType RemoteListType Extractor].
  rewrite !getTypeCodeFromPath_dotted by done.
  cbn [strings.Join]. rewrite String_app_empty_r.
  split; [done|]. split; [done|]. split.
  - by intros ->.
  - intros epkg ename vs Hename ->. by apply getFuncCodeFromPath_dotted.
Qed.

Lemma Process_remote_types_witness :
  ∃ rp' h' ref,
    Process Example_markers.parse demo_processor {| types.ObjName := "Demo" |}
      (demo_field "SubnetID" (types.Pointer (types.Basic "string"))) EmptyString
      demo_comment ["Spec"] []
    = Returned (None, rp', h')
    ∧ GetReferences rp' = GetReferences demo_processor ++ [ref]
    ∧ RemoteType ref = [TOp "&"; TQual "github.com/acme/ec2" "Subnet"; TValues []]
    ∧ RemoteListType ref
      = [TOp "&"; TQual "github.com/acme/ec2" ("Subnet" +:+ "List"); TValues []]
    ∧ Extractor ref = DefaultExtractor demo_processor.
Proof.
  destruct (Process_remote_types Example_markers.parse demo_processor
              {| types.ObjName := "Demo" |}
              (demo_field "SubnetID" (types.Pointer (types.Basic "string")))
              EmptyString demo_comment ["Spec"] []
              "github.com/acme/ec2" "Subnet" [])
    as (rp' & h' & ref & Hp & Hrefs & Htype & Hlist & Hdefault & _).
  - apply example_parse_values_present.
  - reflexivity.
  - vm_compute. reflexivity.
  - exists rp', h', ref. repeat split; try done.
    apply Hdefault. vm_compute. reflexivity.
Defined.

(** ** Properties of a walk *)

(** X12: the references of a walk are gathered in the order of the visits, one
    for every marked field and none for the others; the k-th of them owns
    the k-th array the walk allocates, which holds the path of its field;
    and no call of [Process] along the walk returns an error. *)
Theorem walk_gathers_in_order ParseMarkers rp vs (h : heap) :
  Forall (λ v, values_present (ParseMarkers (vComment v))) vs →
  let marked := List.filter (is_marked ParseMarkers) vs in
  ∃ rp' new,
    visitFields ParseMarkers rp vs h
    = Returned (None, rp', h ++ (path_of (Receiver rp) <$> marked))
    ∧ GetReferences rp' = GetReferences rp ++ new
    ∧ SourceName <$> new = (λ v, types.Name (vField v)) <$> marked
    ∧ GoValueFieldPath <$> new = seq (length h) (length marked).
Proof.
  intros Hwf marked.
  destruct (visitFields_spec ParseMarkers vs rp h Hwf) as (new & Hrun & Hnames & Hpaths).
  do 2 eexists. split; [exact Hrun|]. split; [done|]. split; [done|].
  rewrite Hpaths. f_equal.
  apply (f_equal length) in Hnames. by rewrite !length_fmap in Hnames.
Qed.

Lemma walk_gathers_in_order_witness :
  ∃ rp' new,
    visitFields Example_markers.parse demo_processor demo_marked_walk []
    = Returned (None, rp',
                [] ++ [["mg"; "*Spec"; "VpcID"];
                       ["mg"; "*Spec"; "[]Subnets"; "SubnetID"]])
    ∧ GetReferences rp' = GetReferences demo_processor ++ new
    ∧ SourceName <$> new = ["VpcID"; "SubnetID"]
    ∧ GoValueFieldPath <$> new = [0; 1]%nat.
Proof.
  apply (walk_gathers_in_order Example_markers.parse demo_processor
           demo_marked_walk []).
  repeat constructor; apply example_parse_values_present.
Defined.

(** ** What [NewResolveReferences] comes to *)

Lemma existsb_filter {A} (p : A → bool) (l : list A) :
  existsb p l = negb (length (List.filter p l) =? 0)%nat.
Proof.
  induction l as [|x l IH]; [done|]. cbn [existsb List.filter].
  destruct (p x); [done|]. exact IH.
Qed.

Lemma walk_paths_nonempty (h : heap) receiver (marked : list FieldVisit)
    (new : list Reference) :
  GoValueFieldPath <$> new = seq (length h) (length marked) →
  Forall (λ ref, heap_read (h ++ (path_of receiver <$> marked))
                   (GoValueFieldPath ref) ≠ []) new.
Proof.
  intros Hpaths. apply Forall_forall. intros ref Hin.
  assert (GoValueFieldPath ref ∈ seq (length h) (length marked)) as Hseq.
  { rewrite <- Hpaths. by apply list_elem_of_fmap_2. }
  apply elem_of_seq in Hseq as [Hge Hlt].
  unfold heap_read. rewrite lookup_app_r by lia. rewrite list_lookup_fmap.
  destruct (marked !! (GoValueFieldPath ref - length h)%nat) as [v|] eqn:Hv.
  - done.
  - apply lookup_ge_None in Hv. lia.
Qed.

(** X13: [NewResolveReferences] writes nothing for an object that is not of a
    named type; it panics, with the name of the type, when the walk
    fails, and only then; otherwise it returns, having added the comment
    and the method when some visited field is marked and nothing when
    none is, and having left every array that was there as it was. *)
Theorem NewResolveReferences_outcome ParseMarkers traverser receiver clientPath
    pkg (f : File) o (h : heap) :
  (∀ comment, values_present (ParseMarkers comment)) →
  match types.AsNamed o with
  | None =>
      NewResolveReferences ParseMarkers traverser receiver clientPath pkg f o h
      = Returned (f, h)
  | Some namedType =>
      match failure (traverser namedType) with
      | Some e =>
          NewResolveReferences ParseMarkers traverser receiver clientPath pkg f o h
          = Panicked ("cannot traverse the type tree of "
                      +:+ types.ObjName namedType +:+ ": " +:+ e)
      | None =>
          ∃ f' h',
            NewResolveReferences ParseMarkers traverser receiver clientPath pkg f o h
            = Returned (f', h')
            ∧ (if existsb (is_marked ParseMarkers) (visits (traverser namedType))
               then ∃ comment method, f' = f ++ [comment; method]
               else f' = f)
            ∧ (∀ l, (l < length h)%nat → heap_read h' l = heap_read h l)
      end
  end.
Proof.
  intros Hwf. unfold NewResolveReferences.
  destruct (types.AsNamed o) as [namedType|]; [|done].
  unfold Traverse.
  set (rp := NewReferenceProcessor receiver _).
  destruct (visitFields_spec ParseMarkers (visits (traverser namedType)) rp h)
    as (new & Hrun & Hnames & Hpaths).
  { apply Forall_forall. intros v _. apply Hwf. }
  rewrite Hrun. cbn [mbind result_bind mret result_ret].
  destruct (failure (traverser namedType)) as [e|]; [done|].
  cbn [GetReferences refs rp NewReferenceProcessor foldl WithDefaultExtractor app].
  set (marked := List.filter (is_marked ParseMarkers) (visits (traverser namedType))) in *.
  assert (length new = length marked) as Hlen.
  { apply (f_equal length) in Hnames. by rewrite !length_fmap in Hnames. }
  rewrite Hlen in Hpaths.
  set (h1 := h ++ (path_of (Receiver rp) <$> marked)).
  pose proof (walk_paths_nonempty h (Receiver rp) marked new Hpaths) as Hne.
  fold h1 in Hne.
  assert (∀ l, (l < length h)%nat →
               heap_read (store_after new h1) l = heap_read h l) as Hframe.
  { intros l Hl. rewrite store_after_read by (rewrite Hpaths; apply NoDup_seq).
    rewrite decide_False.
    - unfold h1, heap_read. by rewrite lookup_app_l.
    - rewrite Hpaths. intros [? ?]%elem_of_seq. lia. }
  rewrite existsb_filter. fold marked. rewrite <- Hlen.
  unfold writeResolveReferences.
  destruct new as [|ref new]; cbn [length Nat.eqb negb].
  - do 2 eexists. split; [reflexivity|]. split; [done|].
    destruct marked; [|done]. intros l Hl. unfold heap_read.
    cbn. by rewrite app_nil_r.
  - rewrite resolverLoop_returns by done. cbn [mbind result_bind].
    do 2 eexists. split; [reflexivity|]. split; [|exact Hframe].
    do 2 eexists. by rewrite <- app_assoc.
Qed.

Lemma NewResolveReferences_outcome_witness :
  ∃ f' h',
    NewResolveReferences Example_markers.parse
      (λ _, {| visits := demo_marked_walk; failure := None |})
      "mg" "client" "reference" [] demo_object [["kept"]]
    = Returned (f', h')
    ∧ (∃ comment method, f' = [] ++ [comment; method])
    ∧ (∀ l, (l < 1)%nat → heap_read h' l = heap_read [["kept"]] l).
Proof.
  apply (NewResolveReferences_outcome Example_markers.parse
           (λ _, {| visits := demo_marked_walk; failure := None |})
           "mg" "client" "reference" [] demo_object [["kept"]]).
  apply example_parse_values_present.
Defined.

(** ** Runs of the emitted method *)

Lemma calm_oracle m :
  calm m → oracle m = [] ∨ ∃ o, oracle m = 0%nat :: o ∧ Forall (λ n, n = 0%nat) o.
Proof.
  intros (_ & _ & _ & Hzero). destruct (oracle m) as [|n o]; [by left|].
  apply Forall_cons in Hzero as [-> ?]. right. by eexists.
Qed.

Ltac calm_cases m H :=
  let e := fresh "e" in let r := fresh "r" in let t := fresh "t" in
  let o := fresh "o" in let tr := fresh "tr" in
  let He := fresh in let Hr := fresh in let Ht := fresh in let Hz := fresh in
  pose proof (calm_oracle m H) as Hz;
  destruct H as (He & Hr & Ht & _);
  destruct m as [e r t o tr]; cbn in He, Hr, Ht, Hz; subst e r t;
  destruct Hz as [->|(? & -> & Hz)].

Lemma adds_simple s :
  Forall (λ c, is_simple c = true) s → adds [] s.
Proof. intros Hs m Hm. rewrite exec_simple by done. by rewrite app_nil_r. Qed.

Lemma run_block_adds events s rest more m :
  adds events s →
  (∀ m, calm m →
        calm (run_block exec_code rest m)
        ∧ trace (run_block exec_code rest m) = trace m ++ more) →
  calm m →
  calm (run_block exec_code (s :: rest) m)
  ∧ trace (run_block exec_code (s :: rest) m) = trace m ++ events ++ more.
Proof.
  intros Hs Hrest Hm.
  change (run_block exec_code (s :: rest) m)
    with (run_block exec_code rest (exec s m)).
  destruct (Hs m Hm) as [Hcalm Htrace].
  destruct (Hrest _ Hcalm) as [Hcalm' Htrace'].
  split; [done|]. by rewrite Htrace', Htrace, <- app_assoc.
Qed.

Lemma run_block_quiet items :
  Forall (adds []) items →
  ∀ m, calm m →
       calm (run_block exec_code items m)
       ∧ trace (run_block exec_code items m) = trace m ++ [].
Proof.
  induction 1 as [|s items Hs _ IH]; intros m Hm.
  - by rewrite app_nil_r.
  - by apply (run_block_adds [] s items []).
Qed.

Lemma adds_Stmts items : Forall (adds []) items → adds [] (Stmts items).
Proof. intros Hitems m Hm. rewrite exec_Stmts. by apply run_block_quiet. Qed.

Lemma adds_snoc_Line events s : adds events s → adds events (s ++ [TLine]).
Proof.
  intros Hs m Hm. unfold exec. rewrite run_seq_app. fold (exec s m).
  cbn. destruct (returned (exec s m)); by apply Hs.
Qed.

(** A nil field and an empty list: the block is not entered. *)
Lemma adds_guard x path inner : adds [] [TIf [TId x :: path]; TBlock [inner]].
Proof.
  intros m Hm. calm_cases m Hm; unfold calm; cbn; by rewrite app_nil_r.
Qed.

Lemma adds_loop clauses inner : adds [] [TFor clauses; TBlock [inner]].
Proof.
  intros m Hm. calm_cases m Hm; unfold calm; cbn; by rewrite app_nil_r.
Qed.

Lemma adds_conversion op conversion op' results :
  adds [] [TIf [TErr :: TOp op :: conversion; [TErr; TOp op'; TNil]];
           TBlock [[TReturn results]]].
Proof.
  intros m Hm. calm_cases m Hm; unfold calm; cbn; by rewrite app_nil_r.
Qed.

Lemma checked_lookup_calm lookup context m :
  is_lookup lookup → calm m →
  calm (run_block exec_code [lookup; [TLine]; failure_check context] m)
  ∧ trace (run_block exec_code [lookup; [TLine]; failure_check context] m)
    = trace m ++ [Lookup false].
Proof.
  intros (rsp & method & args & -> & _) Hm.
  calm_cases m Hm; unfold calm; cbn; done.
Qed.

Lemma terminal_rest_quiet ref pkg (h : heap) :
  heap_read h (GoValueFieldPath ref) ≠ [] →
  ∃ lookup rest,
    terminal_stmt ref pkg h
    = Stmts ([lookup; [TLine];
              failure_check (strings.Join (heap_read h (GoValueFieldPath ref)) ".")]
             ++ rest)
    ∧ is_lookup lookup
    ∧ Forall (adds []) rest.
Proof.
  intros Hne. unfold terminal_stmt, terminalCall.
  unfold multiResolutionCall, singleResolutionCall, wrapReturn.
  pose proof (selector_simple _
    (prefixPathOf_selector (heap_read h (GoValueFieldPath ref)))) as Hp.
  destruct (IsSlice ref); cbv beta;
    set (p := prefixPathOf (heap_read h (GoValueFieldPath ref))) in *;
    (destruct (length (heap_read h (GoValueFieldPath ref)) =? 0)%nat eqn:Hlen;
     [apply Nat.eqb_eq, length_zero_iff_nil in Hlen; done|]);
    destruct (IsPointer ref); cbn [mret result_ret]; unfold_jen;
    do 2 eexists; (split; [reflexivity|]);
    (split; [do 3 eexists; split; [reflexivity|]; auto|]);
    repeat (apply Forall_cons; split);
    try apply Forall_nil;
    try (apply adds_simple; try apply Forall_app; repeat constructor; exact Hp).
  all: try done.
  all: apply adds_Stmts;
    repeat (apply Forall_cons; split); try apply Forall_nil;
    try (apply adds_simple; try apply Forall_app; repeat constructor; exact Hp).
  all: try done.
  all: apply adds_conversion.
Qed.

Lemma adds_terminal ref pkg (h : heap) :
  heap_read h (GoValueFieldPath ref) ≠ [] →
  adds [Lookup false] (terminal_stmt ref pkg h).
Proof.
  intros Hne m Hm.
  destruct (terminal_rest_quiet ref pkg h Hne) as (lookup & rest & -> & Hlookup & Hrest).
  rewrite exec_Stmts, run_block_app.
  destruct (checked_lookup_calm lookup
              (strings.Join (heap_read h (GoValueFieldPath ref)) ".") m Hlookup Hm)
    as [Hcalm Htrace].
  destruct (run_block_quiet rest Hrest _ Hcalm) as [Hcalm' Htrace'].
  split; [done|]. by rewrite Htrace', app_nil_r.
Qed.

Lemma guarded_false_unmarked (fields : list string) :
  guarded fields = false → Forall unmarked fields.
Proof.
  unfold guarded. induction fields as [|field fields IH]; [constructor|].
  cbn [existsb]. intros [Hfield Hrest]%orb_false_iff.
  apply orb_false_iff in Hfield. constructor; [done|by apply IH].
Qed.

Lemma guards_from_guarded inner remaining :
  ∀ index (fields : list string),
    remaining = (length fields - index)%nat →
    guarded (drop index fields) = true →
    adds [] (guards_from remaining index fields inner).
Proof.
  induction remaining as [|k IH]; intros index fields Hrem Hguarded.
  - rewrite drop_ge in Hguarded by lia. done.
  - cbn [guards_from].
    destruct (fields !! index) as [field|] eqn:Hfield;
      [|apply lookup_ge_None in Hfield; lia].
    rewrite (drop_S fields field index) in Hguarded by done.
    assert (at_ fields index = field) as -> by (unfold at_; by rewrite Hfield).
    unfold guarded in Hguarded. cbn [existsb] in Hguarded.
    destruct (strings.HasPrefix field "*");
      [|destruct (strings.HasPrefix field "[]")].
    + destruct (fieldPathOf_head fields index) as [rest ->]. apply adds_guard.
    + apply adds_loop.
    + apply IH; [rewrite length_insert; lia|].
      replace (index + 1)%nat with (S index) by lia.
      by rewrite drop_insert_lt by lia.
Qed.

Lemma adds_block ref pkg (h : heap) :
  heap_read h (GoValueFieldPath ref) ≠ [] →
  adds (quiet_lookups h ref) (block_of ref pkg h).
Proof.
  intros Hne. unfold block_of, quiet_lookups. apply adds_snoc_Line.
  destruct (guarded (heap_read h (GoValueFieldPath ref))) eqn:Hguarded.
  - apply guards_from_guarded; [lia|done].
  - rewrite guards_from_unmarked by (by apply guarded_false_unmarked).
    apply adds_terminal. by apply narrowed_nonempty.
Qed.

Lemma blocks_of_adds pkg refs :
  ∀ (h : heap) m,
    Forall (λ ref, heap_read h (GoValueFieldPath ref) ≠ []) refs →
    NoDup (GoValueFieldPath <$> refs) →
    calm m →
    calm (run_block exec_code (blocks_of pkg refs h) m)
    ∧ trace (run_block exec_code (blocks_of pkg refs h) m)
      = trace m ++ concat (quiet_lookups h <$> refs).
Proof.
  induction refs as [|ref refs IH]; intros h m Hpaths Hdup Hm.
  - by rewrite app_nil_r.
  - inversion Hpaths as [|? ? Href Hrefs]; subst.
    rewrite fmap_cons in Hdup. apply NoDup_cons in Hdup as [Hnotin Hdup].
    cbn [blocks_of]. rewrite fmap_cons. cbn [concat].
    apply run_block_adds; [by apply adds_block| |done].
    intros m' Hm'.
    replace (quiet_lookups h <$> refs)
      with (quiet_lookups (narrowed h (GoValueFieldPath ref)) <$> refs).
    + apply IH; [|done|done].
      eapply Forall_impl; [exact Hrefs|]. intros r Hr. by apply narrowed_nonempty.
    + apply Forall_fmap_ext, Forall_forall. intros r Hr. unfold quiet_lookups.
      rewrite narrowed_read_other; [done|].
      intros Heq. apply Hnotin. rewrite Heq. by apply list_elem_of_fmap_2.
Qed.

Lemma quiet_lookups_count (h : heap) refs :
  concat (quiet_lookups h <$> refs)
  = replicate
      (length (List.filter
                 (λ ref, negb (guarded (heap_read h (GoValueFieldPath ref)))) refs))
      (Lookup false).
Proof.
  induction refs as [|ref refs IH]; [done|].
  rewrite fmap_cons. cbn [concat List.filter]. unfold quiet_lookups at 1.
  destruct (guarded (heap_read h (GoValueFieldPath ref))); cbn; by rewrite IH.
Qed.

Lemma initStatements_quiet pkg hasMulti hasSingle :
  Forall (adds []) (initStatementsOf pkg hasMulti hasSingle).
Proof.
  unfold initStatementsOf.
  destruct hasMulti, hasSingle; cbn [orb app];
    repeat (apply Forall_cons; split); try (by constructor);
    apply adds_simple; by repeat constructor.
Qed.

(** X14: the method when no call fails and nothing guarded is there: one
    successful lookup for each reference whose path has no marker, in the
    order of the references, none for a reference behind a guard or in a
    loop, and the method returns with a nil [err]. *)
Theorem quiet_run_looks_up_unguarded receiver clientPath pkg (f : File) oName
    refs (h : heap) oracle :
  refs ≠ [] →
  Forall (λ ref, heap_read h (GoValueFieldPath ref) ≠ []) refs →
  NoDup (GoValueFieldPath <$> refs) →
  Forall (λ n, n = 0%nat) oracle →
  ∃ comment method h',
    writeResolveReferences receiver clientPath pkg f oName refs h
    = Returned (f ++ [comment; method], h')
    ∧ trace (exec method (start oracle))
      = replicate
          (length (List.filter
                     (λ ref, negb (guarded (heap_read h (GoValueFieldPath ref))))
                     refs))
          (Lookup false)
    ∧ returned (exec method (start oracle)) = true
    ∧ err (exec method (start oracle)) = false.
Proof.
  intros Hne Hpaths Hdup Hzero. unfold writeResolveReferences.
  destruct refs as [|ref refs]; [done|]. cbn [length Nat.eqb].
  rewrite resolverLoop_returns by done. cbn [mbind result_bind orb app].
  do 3 eexists. split; [by rewrite <- app_assoc|].
  rewrite <- quiet_lookups_count.
  unfold_jen.
  match goal with
  | |- context [exec (?a :: ?b :: ?c :: ?d :: ?e :: [TBlock ?body]) _] =>
      change (a :: b :: c :: d :: e :: [TBlock body])
        with ([a; b; c; d; e] ++ [TBlock body])
  end.
  rewrite exec_simple_app by (by repeat constructor).
  match goal with
  | |- context [exec [TBlock ?body] (start oracle)] =>
      change (exec [TBlock body] (start oracle))
        with (run_block exec_code body (set_times None (start oracle)))
  end.
  assert (calm (set_times None (start oracle))) as Hm by done.
  match goal with
  | |- context [run_block exec_code [?s1; ?s2; ?s3; ?s4; ?s5; ?s6; ?s7; ?s8] ?m] =>
      change (run_block exec_code [s1; s2; s3; s4; s5; s6; s7; s8] m)
        with (exec s8 (run_block exec_code [s1; s2; s3; s4; s5; s6; s7] m));
      assert (calm (run_block exec_code [s1; s2; s3; s4; s5; s6; s7] m)
              ∧ trace (run_block exec_code [s1; s2; s3; s4; s5; s6; s7] m)
                = trace m ++ [] ++ [] ++ [] ++ [] ++ []
                    ++ concat (quiet_lookups h <$> ref :: refs) ++ [] ++ [])
        as [Hcalm Htrace]
  end.
  { repeat (apply run_block_adds;
            [first [apply adds_simple; by repeat constructor
                   |apply adds_Stmts, initStatements_quiet
                   |idtac]
            |intros ? ?|done]).
    - intros m' Hm'. rewrite exec_Stmts.
      by apply blocks_of_adds.
    - by rewrite app_nil_r. }
  cbn [app] in Htrace. rewrite !app_nil_r in Htrace.
  destruct Hcalm as (Herr & Hret & _).
  match type of Hret with returned ?m7 = false => set (after := m7) in * end.
  unfold exec, run_seq. cbn [foldl]. rewrite Hret.
  cbn [exec_code do_return trace returned err]. by rewrite Htrace, Herr.
Qed.

Lemma quiet_run_looks_up_unguarded_witness :
  ∃ comment method h',
    writeResolveReferences "mg" "client" "reference" [] "Demo" demo_refs demo_heap
    = Returned ([] ++ [comment; method], h')
    ∧ trace (exec method (start [0; 0; 0]%nat))
      = replicate
          (length (List.filter
                     (λ ref, negb (guarded (heap_read demo_heap (GoValueFieldPath ref))))
                     demo_refs))
          (Lookup false)
    ∧ returned (exec method (start [0; 0; 0]%nat)) = true
    ∧ err (exec method (start [0; 0; 0]%nat)) = false.
Proof.
  apply (quiet_run_looks_up_unguarded "mg" "client" "reference" [] "Demo"
           demo_refs demo_heap [0; 0; 0]%nat).
  - discriminate.
  - repeat constructor; discriminate.
  - apply (bool_decide_unpack _). reflexivity.
  - repeat constructor.
Defined.

(** X15: every run of the emitted method ends in a return: whatever the
    lookups and conversions report, whichever guarded fields are nil and
    however long the lists are, the method has returned once its body has
    been gone through. *)
Theorem emitted_method_always_returns receiver clientPath pkg (f : File) oName
    refs (h : heap) :
  refs ≠ [] →
  Forall (λ ref, heap_read h (GoValueFieldPath ref) ≠ []) refs →
  ∃ comment method h',
    writeResolveReferences receiver clientPath pkg f oName refs h
    = Returned (f ++ [comment; method], h')
    ∧ ∀ oracle, returned (exec method (start oracle)) = true.
Proof.
  intros Hne Hpaths. unfold writeResolveReferences.
  destruct refs as [|ref refs]; [done|]. cbn [length Nat.eqb].
  rewrite resolverLoop_returns by done. cbn [mbind result_bind orb app].
  do 3 eexists. split; [by rewrite <- app_assoc|].
  intros oracle. unfold_jen.
  match goal with
  | |- context [exec (?a :: ?b :: ?c :: ?d :: ?e :: [TBlock ?body]) _] =>
      change (a :: b :: c :: d :: e :: [TBlock body])
        with ([a; b; c; d; e] ++ [TBlock body])
  end.
  rewrite exec_simple_app by (by repeat constructor).
  match goal with
  | |- context [exec [TBlock [?s1; ?s2; ?s3; ?s4; ?s5; ?s6; ?s7; ?s8]] ?m] =>
      change (exec [TBlock [s1; s2; s3; s4; s5; s6; s7; s8]] m)
        with (exec s8 (run_block exec_code [s1; s2; s3; s4; s5; s6; s7]
                         (set_times None m)))
  end.
  match goal with
  | |- returned (exec _ ?m7) = true => generalize m7
  end.
  intros after. unfold exec, run_seq. cbn [foldl].
  by destruct (returned after) eqn:Hret.
Qed.

Lemma emitted_method_always_returns_witness :
  ∃ comment method h',
    writeResolveReferences "mg" "client" "reference" [] "Demo" demo_refs demo_heap
    = Returned ([] ++ [comment; method], h')
    ∧ ∀ oracle, returned (exec method (start oracle)) = true.
Proof.
  apply (emitted_method_always_returns "mg" "client" "reference" [] "Demo"
           demo_refs demo_heap).
  - discriminate.
  - repeat constructor; discriminate.
Defined.
